(** * Content negotiation of the web codec service

    A shallow embedding of package [services] of the codecs repository:
    - [src/services/web_codec_service.go] (module [WebCodecService]), and
    - [src/unnamed/part_000] (module [AcceptTree]), the revision of the same
      file in which the Accept header is parsed into a binary tree of
      clauses ordered by priority.

    Go values are modelled as follows.  A Go [string] is a [string] of
    8-bit characters; an [int] is a [Z]; a slice is a [list]; a pointer
    that may be [nil] is an [option]; a [map[string]string] is an
    [option (gmap string string)] whose [None] is the nil map; a run-time
    panic is the constructor [Panic] of [Go.result]; a Go result pair
    [(value, error)] is a pair of options.  A method that updates its
    receiver in place returns the updated value.

    Both files are work in progress and are read for what their statements
    do: the fields written [priority] and [variables] are the fields
    [Priority] and [Variables]; [strconv.ParseFloat(s, 32)] yields the
    parsed number or an error; the nodes of the tree are handled through
    pointers, so that [root == nil] tests a pointer and [Left] and [Right]
    point to the node appended.  The codecs, the constants of package
    [constants], [float32] with [strconv.ParseFloat], and the values held in
    an [interface{}] come from outside the two files and are parameters.
    So is the part of [strings.ToLower] that needs the tables of Unicode:
    the lowering of a string of ASCII is written out, the lowering of any
    other string is the interface [Go.Unicode]. *)

From Stdlib Require Import ZArith Lia Ascii String Bool Sorted Permutation.
From stdpp Require Import base option list sorting strings gmap.

Local Open Scope Z_scope.

(** ** The pieces of the Go run time and standard library the code uses *)

Module Go.

(** A computation either returns or panics; the message is that of the
    run time, without the numbers it adds. *)
Inductive result (A : Type) : Type :=
| Ok (a : A)
| Panic (msg : string).
Arguments Ok {A} a.
Arguments Panic {A} msg.

#[global] Instance result_ret : MRet result := @Ok.
#[global] Instance result_bind : MBind result := λ A B f m,
  match m with
  | Ok a => f a
  | Panic msg => Panic msg
  end.

#[global] Instance result_fmap : FMap result := λ A B f m,
  match m with
  | Ok a => Ok (f a)
  | Panic msg => Panic msg
  end.

Definition returns {A} (m : result A) : Prop := ∃ a, m = Ok a.
Definition panics {A} (m : result A) : Prop := ∃ msg, m = Panic msg.

(** [len(s)] of a string, a slice. *)
Definition len (s : string) : Z := Z.of_nat (String.length s).
Definition len_slice {A} (l : list A) : Z := Z.of_nat (length l).

(** [l[i]]: an index expression panics out of range. *)
Definition index {A} (l : list A) (i : Z) : result A :=
  if (i <? 0) || (len_slice l <=? i) then Panic "index out of range"
  else match l !! Z.to_nat i with
       | Some x => Ok x
       | None => Panic "index out of range"
       end.

(** [l[i] = x]: so does an assignment through an index. *)
Definition store {A} (l : list A) (i : Z) (x : A) : result (list A) :=
  if (i <? 0) || (len_slice l <=? i) then Panic "index out of range"
  else Ok (<[Z.to_nat i := x]> l).

(** [make([]T, n)] with the zero value of [T]. *)
Definition make {A} (zero : A) (n : Z) : result (list A) :=
  if n <? 0 then Panic "makeslice: len out of range"
  else Ok (replicate (Z.to_nat n) zero).

Fixpoint string_drop (n : nat) (s : string) : string :=
  match n, s with
  | O, _ => s
  | S _, EmptyString => EmptyString
  | S n', String _ s' => string_drop n' s'
  end.

(** [s[i:]] on a string. *)
Definition slice_from (s : string) (i : Z) : result string :=
  if (i <? 0) || (len s <? i) then Panic "slice bounds out of range"
  else Ok (string_drop (Z.to_nat i) s).

(** [l[1:]] on a slice. *)
Definition slice_from_1 {A} (l : list A) : result (list A) :=
  match l with
  | [] => Panic "slice bounds out of range"
  | _ :: tl => Ok tl
  end.

(** A map value: [None] is the nil map, which can be read but not
    written. *)
Definition map_string := option (gmap string string).

Definition mapaccess (m : map_string) (k : string) : option string :=
  match m with
  | None => None
  | Some g => g !! k
  end.

Definition mapassign (m : map_string) (k v : string) : result map_string :=
  match m with
  | None => Panic "assignment to entry in nil map"
  | Some g => Ok (Some (<[k := v]> g))
  end.

(** [strings.Split(s, sep)] for a separator of one byte: there is always
    at least one piece. *)
Fixpoint Split (s : string) (sep : ascii) : list string :=
  match s with
  | EmptyString => [EmptyString]
  | String c s' =>
      if Ascii.eqb c sep then EmptyString :: Split s' sep
      else match Split s' sep with
           | piece :: rest => String c piece :: rest
           | [] => [String c EmptyString]
           end
  end.

(** [strings.LastIndex(s, sep)] for a separator of one byte: the index of
    the last occurrence, -1 when there is none. *)
Fixpoint LastIndex_from (i : Z) (s : string) (sep : ascii) (found : Z) : Z :=
  match s with
  | EmptyString => found
  | String c s' =>
      LastIndex_from (i + 1) s' sep (if Ascii.eqb c sep then i else found)
  end.

Definition LastIndex (s : string) (sep : ascii) : Z :=
  LastIndex_from 0 s sep (-1).

(** [strings.ToLower].  A string all of whose bytes are below
    [utf8.RuneSelf] is lowered byte by byte; every other string goes to
    [strings.Map] with [unicode.ToLower], which decodes the string as
    UTF-8 and lowers every letter of Unicode (the capital I with a dot
    becomes [i], the Kelvin sign becomes [k]). *)
Definition RuneSelf : nat := 128.

Definition ascii_byte (c : ascii) : bool := (nat_of_ascii c <? RuneSelf)%nat.

Fixpoint ascii_text (s : string) : bool :=
  match s with
  | EmptyString => true
  | String c s' => ascii_byte c && ascii_text s'
  end.

(** [if 'A' <= c && c <= 'Z' { c += 'a' - 'A' }]. *)
Definition lower_byte (c : ascii) : ascii :=
  let n := nat_of_ascii c in
  if (65 <=? n)%nat && (n <=? 90)%nat then ascii_of_nat (n + 32) else c.

(** The bytes ['a'] to ['z']. *)
Definition small_letter (c : ascii) : bool :=
  let n := nat_of_ascii c in (97 <=? n)%nat && (n <=? 122)%nat.

(** The loop over the bytes of a string of ASCII. *)
Fixpoint lower_bytes (s : string) : string :=
  match s with
  | EmptyString => EmptyString
  | String c s' => String (lower_byte c) (lower_bytes s')
  end.

(** [strings.Map(unicode.ToLower, s)] rests on the UTF-8 decoder and on
    the case tables of package [unicode]; it is taken as an interface,
    with what the proofs use of it.  The characters are mapped one by one
    from the left: a byte of ASCII is a character on its own and is
    lowered as above; a character that begins with another byte, or a
    byte that is no valid UTF-8, yields at least one byte, and the first
    byte it yields is again outside ASCII or is a small letter (no
    character outside ASCII is lowered to anything else of ASCII). *)
Class Unicode : Type := {
  Map_ToLower : string → string;
  Map_ToLower_ascii : ∀ c s,
    ascii_byte c = true →
    Map_ToLower (String c s) = String (lower_byte c) (Map_ToLower s);
  Map_ToLower_other : ∀ c s,
    ascii_byte c = false →
    ∃ d t, Map_ToLower (String c s) = String d t
           ∧ (ascii_byte d = false ∨ small_letter d = true)
}.

Definition ToLower `{Unicode} (s : string) : string :=
  if ascii_text s then lower_bytes s else Map_ToLower s.

(** [strings.Contains(s, substr)]. *)
Fixpoint Contains (s substr : string) : bool :=
  if String.prefix substr s then true
  else match s with
       | EmptyString => false
       | String _ s' => Contains s' substr
       end.

(** [fmt.Sprintf("Content type \"%s\" is not supported.", v)]. *)
Definition dquote : ascii := ascii_of_nat 34.

Definition Sprintf_not_supported (v : string) : string :=
  "Content type " +:+ String dquote v +:+ String dquote " is not supported.".

(** The first element a [for ... range] loop returns on. *)
Fixpoint first_where {A} (p : A → bool) (l : list A) : option A :=
  match l with
  | [] => None
  | x :: l' => if p x then Some x else first_where p l'
  end.

(** The same when the loop body computes the value it returns. *)
Fixpoint first_some {A B} (f : A → option B) (l : list A) : option B :=
  match l with
  | [] => None
  | x :: l' => match f x with
               | Some y => Some y
               | None => first_some f l'
               end
  end.

(** [x] is the first element of [l] with the property [P]. *)
Definition first_such {A} (P : A → Prop) (l : list A) (x : A) : Prop :=
  ∃ before after, l = before ++ x :: after ∧ P x ∧ Forall (λ y, ¬ P y) before.

(** [sub] occurs in [s] once [strings.ToLower] is through with both. *)
Definition ci_substring `{Unicode} (sub s : string) : Prop :=
  ∃ before after, ToLower s = before +:+ ToLower sub +:+ after.

End Go.

Import Go.

(** ** Package [codecs]: the contracts of the collaborators

    The codec implementations and the projection helper live in other
    packages of the repository; the service sees a codec only through the
    methods of the [Codec] interface.  [V] stands for the Go values held in
    an [interface{}], [O] for the [map[string]interface{}] of options. *)

Module codecs_pkg.

Inductive error : Type :=
| errors_New (msg : string).

Section Contracts.
Context {V O : Type}.

(** An object handed to the service is a Go value that either implements
    the [Facade] interface, and then carries its [PublicData] method, or
    does not. *)
Record object : Type := {
  raw : V;
  facade : option (O → option V * option error)
}.

(** The [Codec] interface. *)
Record Codec : Type := {
  ContentType : string;
  FileExtension : string;
  CanMarshalWithCallback : bool;
  Marshal : option V → O → option (list Byte.byte) * option error;
  Unmarshal : list Byte.byte → V → option error
}.

(** Modelled from the spec: [codecs.PublicData] is not among the
    sources.  "If object exposes a produces-public-representation
    capability, invoke it with options and use the result; otherwise
    use object unchanged." *)
Definition PublicData (obj : object) (options : O)
  : option V * option error :=
  match facade obj with
  | Some publicData => publicData options
  | None => (Some (raw obj), None)
  end.

End Contracts.

Arguments object : clear implicits.
Arguments Codec : clear implicits.

End codecs_pkg.

Import codecs_pkg.

(** ** Package [strconv] and the type [float32]

    The priorities are [float32] values compared with [==], [>] and [<];
    [strconv.ParseFloat] yields [None] when it returns an error.  Both come
    from outside the repository and are taken as an interface. *)

Class Float32 : Type := {
  float32 : Type;
  f32_zero : float32;
  f32_one : float32;
  f32_eq : float32 → float32 → bool;
  f32_gt : float32 → float32 → bool;
  f32_lt : float32 → float32 → bool;
  ParseFloat : string → Z → option float32
}.

(** [a >= b] as the comparisons above give it. *)
Definition f32_ge `{Float32} (a b : float32) : bool := f32_eq a b || f32_gt a b.

(** The order laws of the [float32] values that are numbers (no NaN). *)
Record Float32Order `{Float32} : Prop := {
  f32_eq_refl : ∀ a, f32_eq a a = true;
  f32_eq_sym : ∀ a b, f32_eq a b = true → f32_eq b a = true;
  f32_lt_gt : ∀ a b, f32_lt a b = f32_gt b a;
  f32_total : ∀ a b, f32_eq a b = true ∨ f32_gt a b = true ∨ f32_lt a b = true;
  f32_ge_trans : ∀ a b c, f32_ge a b = true → f32_ge b c = true → f32_ge a c = true
}.


(** ** The part of package [services] the two revisions share
    ([web_codec_service.go] lines 71-107 and 143-195) *)

Module Services.
Section Service.
Context {V O : Type} `{Unicode}.
(** [constants.ContentTypeJSON], [constants.ContentTypeJSONP]. *)
Context (ContentTypeJSON ContentTypeJSONP : string).
(** [new(json.JsonCodec)] and the like. *)
Context (JsonCodec JsonPCodec MsgpackCodec BsonCodec CsvCodec
         SimpleXmlCodec : Codec V O).

Definition ErrorContentTypeNotSupported : error :=
  errors_New "Content type is not supported.".

Definition DefaultCodecs : list (Codec V O) :=
  [JsonCodec; JsonPCodec; MsgpackCodec; BsonCodec; CsvCodec; SimpleXmlCodec].

Record WebCodecService : Type := { codecs : list (Codec V O) }.

Definition NewWebCodecService : WebCodecService :=
  {| codecs := DefaultCodecs |}.

Definition Codecs (s : WebCodecService) : list (Codec V O) := codecs s.

Definition AddCodec (s : WebCodecService) (codec : Codec V O)
  : WebCodecService :=
  {| codecs := codecs s ++ [codec] |}.

Definition assertCodecs (s : WebCodecService) : result unit :=
  if len_slice (codecs s) =? 0
  then Panic "codecs: No codecs are installed - use AddCodec to add some or use NewWebCodecService for default codecs."
  else Ok tt.

(** The test of one round of the loop of [GetCodec]. *)
Definition GetCodec_test (contentType : string) (codec : Codec V O) : bool :=
  (len contentType =? 0) && String.eqb (ContentType codec) ContentTypeJSON
  || Contains (ToLower contentType) (ToLower (ContentType codec)).

Definition GetCodec (s : WebCodecService) (contentType : string)
  : result (option (Codec V O) * option error) :=
  assertCodecs s;;
  match first_where (GetCodec_test contentType) (codecs s) with
  | Some codec => Ok (Some codec, None)
  | None => Ok (None, Some (errors_New (Sprintf_not_supported contentType)))
  end.

(** The calls [MarshalWithCodec] makes into other packages, in order. *)
Inductive call : Type :=
| call_PublicData (obj : object V O) (options : O)
| call_Marshal (codec : Codec V O) (publicData : option V)
               (options : O).

Definition invokes_Marshal (c : call) : Prop :=
  match c with
  | call_Marshal _ _ _ => True
  | call_PublicData _ _ => False
  end.

Definition MarshalWithCodec (s : WebCodecService) (codec : Codec V O)
    (obj : object V O) (options : O)
  : result ((option (list Byte.byte) * option error) * list call) :=
  assertCodecs s;;
  let '(publicData, err) := PublicData obj options in
  match err with
  | Some e => Ok ((None, Some e), [call_PublicData obj options])
  | None =>
      Ok (Marshal codec publicData options,
          [call_PublicData obj options;
           call_Marshal codec publicData options])
  end.

Definition UnmarshalWithCodec (s : WebCodecService) (codec : Codec V O)
    (data : list Byte.byte) (obj : object V O) : result (option error) :=
  assertCodecs s;;
  Ok (Unmarshal codec data (raw obj)).

(** [s.codecs[0]]. *)
Definition first_codec (s : WebCodecService) : result (Codec V O) :=
  index (codecs s) 0.

(** The search for the JSONP codec that opens [GetCodecForResponding]. *)
Definition callback_codec (s : WebCodecService) (hasCallback : bool)
  : option (Codec V O) :=
  if hasCallback
  then first_where (λ codec, String.eqb (ContentType codec) ContentTypeJSONP)
                   (codecs s)
  else None.

End Service.
End Services.

Import Services.

(** ** The statements the two revisions of [NewAcceptType] share
    ([web_codec_service.go] lines 34-53, [part_000] lines 97-116)

    [new(AcceptType)] yields the zero value, whose [Variables] is the nil
    map; no statement allocates it.  The fields written [priority] and
    [variables] are read as [Priority] and [Variables]. *)

Module Clause.
Section Parse.
Context `{Float32}.

(** One round of the loop over the parameter segments:
    [acceptType.Variables[variableParts[0]] = variableParts[1]]. *)
Definition parse_variable (Variables : map_string) (variable : string)
  : result map_string :=
  let variableParts := Split variable "=" in
  name ← index variableParts 0;
  value ← index variableParts 1;
  mapassign Variables name value.

Fixpoint parse_variables (Variables : map_string) (variables : list string)
  : result map_string :=
  match variables with
  | [] => Ok Variables
  | variable :: rest =>
      Variables' ← parse_variable Variables variable;
      parse_variables Variables' rest
  end.

(** The priority of a clause, from its parameters. *)
Definition priority_of (Variables : map_string) : float32 :=
  match mapaccess Variables "q" with
  | Some priority =>
      match ParseFloat priority 32 with
      | Some requestedPriority => requestedPriority
      | None => f32_one
      end
  | None => f32_one
  end.

(** The fields [ContentTypes], [Variables] and [Priority] of the clause
    parsed from [accept]. *)
Definition parse (accept : string)
  : result (list string * map_string * float32) :=
  let typesAndVariables := Split accept ";" in
  variables ← slice_from_1 typesAndVariables;
  Variables ← parse_variables None variables;
  typesString ← index typesAndVariables 0;
  let types := Split typesString "+" in
  types0 ← index types 0;
  let categoryEnd := LastIndex types0 "/" in
  subtype ← slice_from types0 categoryEnd;
  types ← store types 0 subtype;
  Ok (types, Variables, priority_of Variables).

End Parse.
End Clause.

(** ** [src/services/web_codec_service.go] *)

Module WebCodecService.
Section File.
Context {V O : Type} `{Float32} `{Unicode}.
Context (ContentTypeJSONP : string).

(** The struct declares [ContentTypes] and [Variables]; [Priority] is
    the field [NewAcceptType] and [ParseAcceptTypes] use. *)
Record AcceptType : Type := {
  ContentTypes : list string;
  Variables : map_string;
  Priority : float32
}.

Record AcceptPriority : Type := {
  Types : list AcceptType;
  AcceptPriority_Priority : float32
}.

Definition NewAcceptType (accept : string) : result AcceptType :=
  '(types, variables, priority) ← Clause.parse accept;
  Ok {| ContentTypes := types; Variables := variables;
        Priority := priority |}.

(** [types[k] = append(types[k], x)] on a [map[float32][]AcceptType]:
    the entries are kept in a list, looked up by [==] on the keys; Go
    gives the entries of a map no order. *)
Fixpoint map_append (types : list (float32 * list AcceptType))
    (k : float32) (x : AcceptType) : list (float32 * list AcceptType) :=
  match types with
  | [] => [(k, [x])]
  | (k', bucket) :: rest =>
      if f32_eq k' k then (k', bucket ++ [x]) :: rest
      else (k', bucket) :: map_append rest k x
  end.

Fixpoint ParseAcceptTypes_loop (types : list (float32 * list AcceptType))
    (acceptPieces : list string)
  : result (list (float32 * list AcceptType)) :=
  match acceptPieces with
  | [] => Ok types
  | acceptStr :: rest =>
      acceptType ← NewAcceptType acceptStr;
      ParseAcceptTypes_loop
        (map_append types (Priority acceptType) acceptType) rest
  end.

Definition ParseAcceptTypes (accept : string)
  : result (list (float32 * list AcceptType)) :=
  ParseAcceptTypes_loop [] (Split accept ",").

(** The clauses of a header, in header order. *)
Fixpoint header_clauses (acceptPieces : list string)
  : result (list AcceptType) :=
  match acceptPieces with
  | [] => Ok []
  | acceptStr :: rest =>
      acceptType ← NewAcceptType acceptStr;
      others ← header_clauses rest;
      Ok (acceptType :: others)
  end.

(** A bucket holds clauses of its key's priority, in header order. *)
Definition bucket_of (clauses : list AcceptType)
    (entry : float32 * list AcceptType) : Prop :=
  entry.2 `sublist_of` clauses
  ∧ Forall (λ x, f32_eq entry.1 (Priority x) = true) entry.2.

(** The test of one round of the second loop of
    [GetCodecForResponding] (lines 129-137). *)
Definition responding_test (accept extension : string) (hasCallback : bool)
    (codec : Codec V O) : bool :=
  Contains (ToLower accept) (ToLower (ContentType codec))
  || String.eqb (ToLower (FileExtension codec)) (ToLower extension)
  || hasCallback && CanMarshalWithCallback codec.

Definition GetCodecForResponding (s : WebCodecService)
    (accept extension : string) (hasCallback : bool)
  : result (option (Codec V O) * option error) :=
  assertCodecs s;;
  match callback_codec ContentTypeJSONP s hasCallback with
  | Some codec => Ok (Some codec, None)
  | None =>
      match first_where (responding_test accept extension hasCallback)
                        (codecs s) with
      | Some codec => Ok (Some codec, None)
      | None => codec ← first_codec s; Ok (Some codec, None)
      end
  end.

End File.
End WebCodecService.

(** ** [src/unnamed/part_000] *)

Module AcceptTree.
Section File.
Context {V O : Type} `{Float32} `{Unicode}.
Context (ContentTypeJSONP : string).

Local Unset Elimination Schemes.
Inductive AcceptType : Type := mkAcceptType {
  ContentTypes : list string;
  Variables : map_string;
  Size : Z;
  Priority : float32;
  Left : option AcceptType;
  Right : option AcceptType
}.
Local Set Elimination Schemes.

(** The zero value of the struct, as [new] and [make] produce it. *)
Definition zero : AcceptType :=
  mkAcceptType [] None 0 f32_zero None None.

Definition set_Left (a : AcceptType) (l : AcceptType) : AcceptType :=
  mkAcceptType (ContentTypes a) (Variables a) (Size a) (Priority a)
               (Some l) (Right a).
Definition set_Right (a : AcceptType) (r : AcceptType) : AcceptType :=
  mkAcceptType (ContentTypes a) (Variables a) (Size a) (Priority a)
               (Left a) (Some r).
Definition incr_Size (a : AcceptType) : AcceptType :=
  mkAcceptType (ContentTypes a) (Variables a) (Size a + 1) (Priority a)
               (Left a) (Right a).

(** [acceptType.Append(next)]: the node is updated in place, here it is
    returned.  No node is reachable twice, each comes fresh from
    [NewAcceptType]. *)
Fixpoint Append (acceptType next : AcceptType) : AcceptType :=
  match acceptType with
  | mkAcceptType cts vars size priority lchild rchild =>
      let this := mkAcceptType cts vars size priority lchild rchild in
      incr_Size
        (if f32_eq priority (Priority next) then
           match lchild, rchild with
           | None, _ => set_Left this next
           | Some _, None => set_Right this next
           | Some l, Some r =>
               (* Try to keep the tree balanced *)
               if Size r <=? Size l
               then set_Right this (Append r next)
               else set_Left this (Append l next)
           end
         else if f32_gt (Priority next) priority then
           match lchild with
           | None => set_Left this next
           | Some l => set_Left this (Append l next)
           end
         else if f32_lt (Priority next) priority then
           match rchild with
           | None => set_Right this next
           | Some r => set_Right this (Append r next)
           end
         else this)
  end.

(** [for index, x := range xs { typeSlice[start + index] = x }]. *)
Fixpoint store_all {A} (typeSlice : list A) (start : Z) (xs : list A)
  : result (list A) :=
  match xs with
  | [] => Ok typeSlice
  | x :: rest =>
      typeSlice' ← store typeSlice start x;
      store_all typeSlice' (start + 1) rest
  end.

Fixpoint ToSlice (acceptType : AcceptType) : result (list AcceptType) :=
  match acceptType with
  | mkAcceptType cts vars size priority lchild rchild =>
      typeSlice ← make zero size;
      '(leftEnd, typeSlice) ←
        match lchild with
        | Some l =>
            leftSlice ← ToSlice l;
            typeSlice' ← store_all typeSlice 0 leftSlice;
            Ok (Size l, typeSlice')
        | None => Ok (0, typeSlice)
        end;
      typeSlice ← store typeSlice leftEnd
                   (mkAcceptType cts vars size priority lchild rchild);
      match rchild with
      | Some r =>
          let rightStart := leftEnd + 1 in
          rightSlice ← ToSlice r;
          store_all typeSlice rightStart rightSlice
      | None => Ok typeSlice
      end
  end.

Definition FindCodec (acceptType : AcceptType) (codecs : list (Codec V O))
  : option (Codec V O) :=
  first_where
    (λ codec,
       existsb (λ typeString,
                  String.eqb (ToLower typeString)
                             (ToLower (ContentType codec)))
               (ContentTypes acceptType))
    codecs.

Definition NewAcceptType (accept : string) : result AcceptType :=
  '(types, variables, priority) ← Clause.parse accept;
  Ok (mkAcceptType types variables 1 priority None None).

(** The loop of [ParseAcceptTypes]; [root] is nil until the first
    clause is parsed. *)
Fixpoint ParseAcceptTypes_loop (root : option AcceptType)
    (acceptPieces : list string) : result (option AcceptType) :=
  match acceptPieces with
  | [] => Ok root
  | acceptStr :: rest =>
      nextType ← NewAcceptType acceptStr;
      ParseAcceptTypes_loop
        (Some (match root with
               | None => nextType
               | Some r => Append r nextType
               end))
        rest
  end.

Definition ParseAcceptTypes (accept : string) : result (option AcceptType) :=
  ParseAcceptTypes_loop None (Split accept ",").

(** The test of one round of the last loop of [GetCodecForResponding]
    (lines 203-209). *)
Definition extension_test (extension : string) (hasCallback : bool)
    (codec : Codec V O) : bool :=
  String.eqb (ToLower (FileExtension codec)) (ToLower extension)
  || hasCallback && CanMarshalWithCallback codec.

Definition GetCodecForResponding (s : WebCodecService)
    (accept extension : string) (hasCallback : bool)
  : result (option (Codec V O) * option error) :=
  assertCodecs s;;
  match callback_codec ContentTypeJSONP s hasCallback with
  | Some codec => Ok (Some codec, None)
  | None =>
      acceptTypesRoot ← ParseAcceptTypes accept;
      typeSlice ← match acceptTypesRoot with
                  | Some root => ToSlice root
                  | None => Panic "invalid memory address or nil pointer dereference"
                  end;
      match first_some (λ acceptType, FindCodec acceptType (codecs s))
                       typeSlice with
      | Some codec => Ok (Some codec, None)
      | None =>
          match first_where (extension_test extension hasCallback)
                            (codecs s) with
          | Some codec => Ok (Some codec, None)
          | None => codec ← first_codec s; Ok (Some codec, None)
          end
      end
  end.

(** *** What the proofs say about a tree *)

(** The clause a node stands for: the fields [NewAcceptType] fills. *)
Definition clause (a : AcceptType) : list string * map_string * float32 :=
  (ContentTypes a, Variables a, Priority a).

(** The nodes of a tree from left to right. *)
Fixpoint inorder (a : AcceptType) : list AcceptType :=
  match a with
  | mkAcceptType cts vars size priority lchild rchild =>
      match lchild with Some l => inorder l | None => [] end
      ++ mkAcceptType cts vars size priority lchild rchild
      :: match rchild with Some r => inorder r | None => [] end
  end.

Definition Size_of (child : option AcceptType) : Z :=
  match child with Some c => Size c | None => 0 end.

(** [Size] counts the nodes of every subtree. *)
Fixpoint well_sized (a : AcceptType) : Prop :=
  match a with
  | mkAcceptType _ _ size _ lchild rchild =>
      size = 1 + Size_of lchild + Size_of rchild
      ∧ match lchild with Some l => well_sized l | None => True end
      ∧ match rchild with Some r => well_sized r | None => True end
  end.

(** Higher priorities on the left, lower ones on the right, equal ones
    on either side. *)
Fixpoint ordered (a : AcceptType) : Prop :=
  match a with
  | mkAcceptType _ _ _ priority lchild rchild =>
      match lchild with
      | Some l =>
          Forall (λ x, f32_ge (Priority x) priority = true) (inorder l)
          ∧ ordered l
      | None => True
      end
      ∧ match rchild with
        | Some r =>
            Forall (λ x, f32_ge priority (Priority x) = true) (inorder r)
            ∧ ordered r
        | None => True
        end
  end.

(** A node as [NewAcceptType] returns it: no children, [Size] 1. *)
Definition fresh (next : AcceptType) : Prop :=
  Left next = None ∧ Right next = None ∧ Size next = 1.

Definition clauses_of (child : option AcceptType)
  : list (list string * map_string * float32) :=
  match child with
  | Some c => clause <$> inorder c
  | None => []
  end.

(** One round of the loop of [ParseAcceptTypes] once the clause is
    parsed. *)
Definition grow (root : option AcceptType) (nextType : AcceptType)
  : option AcceptType :=
  Some (match root with
        | None => nextType
        | Some r => Append r nextType
        end).

(** A sequence of nodes in descending order of priority. *)
Definition descending (l : list AcceptType) : Prop :=
  StronglySorted (λ a b, f32_ge (Priority a) (Priority b) = true) l.

(** The induction principle of the tree. *)
Fixpoint AcceptType_ind (P : AcceptType → Prop)
    (step : ∀ cts vars size priority lchild rchild,
        match lchild with Some l => P l | None => True end →
        match rchild with Some r => P r | None => True end →
        P (mkAcceptType cts vars size priority lchild rchild))
    (a : AcceptType) : P a :=
  match a with
  | mkAcceptType cts vars size priority lchild rchild =>
      step cts vars size priority lchild rchild
        (match lchild as o
               return match o with Some l => P l | None => True end with
         | Some l => AcceptType_ind P step l
         | None => I
         end)
        (match rchild as o
               return match o with Some r => P r | None => True end with
         | Some r => AcceptType_ind P step r
         | None => I
         end)
  end.

(** The clauses of a header, in header order. *)
Fixpoint header_clauses (acceptPieces : list string)
  : result (list AcceptType) :=
  match acceptPieces with
  | [] => Ok []
  | acceptStr :: rest =>
      nextType ← NewAcceptType acceptStr;
      others ← header_clauses rest;
      Ok (nextType :: others)
  end.

(** *** The order the specification asks for

    "Bucket by priority value, then yield buckets ordered from highest
    to lowest priority.  Ties within a bucket preserve header order."
    A clause is put behind every clause of a priority at least its
    own. *)
Fixpoint spec_insert (x : list string * map_string * float32)
    (l : list (list string * map_string * float32))
  : list (list string * map_string * float32) :=
  match l with
  | [] => [x]
  | y :: l' =>
      if f32_gt (x.2) (y.2) then x :: y :: l' else y :: spec_insert x l'
  end.

Definition spec_preference_order
    (clauses : list (list string * map_string * float32))
  : list (list string * map_string * float32) :=
  fold_left (λ acc x, spec_insert x acc) clauses [].

End File.
End AcceptTree.

(** ** A concrete world to run the code in

    Priorities are held in thousandths, [strconv.ParseFloat] reads the
    decimals of up to three places that Accept headers carry, and the
    codecs are those the specification's examples name, with the content
    types of package [constants]. *)

Module Sample.

Definition digit (c : ascii) : option Z :=
  let n := nat_of_ascii c in
  if (48 <=? n)%nat && (n <=? 57)%nat then Some (Z.of_nat (n - 48)) else None.

Fixpoint number (s : string) (acc : Z) : option Z :=
  match s with
  | EmptyString => Some acc
  | String c s' => d ← digit c; number s' (10 * acc + d)
  end.

Fixpoint fraction (places : nat) (s : string) (acc : Z) : option Z :=
  match places with
  | O => number s 0;; Some acc
  | S places' =>
      match s with
      | EmptyString => fraction places' EmptyString (10 * acc)
      | String c s' => d ← digit c; fraction places' s' (10 * acc + d)
      end
  end.

Definition parse_decimal (s : string) (bitSize : Z) : option Z :=
  match Split s "." with
  | [whole] =>
      if String.eqb whole "" then None
      else n ← number whole 0; Some (1000 * n)
  | [whole; frac] =>
      n ← number whole 0; m ← fraction 3 frac 0; Some (1000 * n + m)
  | _ => None
  end.

#[global] Instance thousandths : Float32 := {|
  float32 := Z;
  f32_zero := 0;
  f32_one := 1000;
  f32_eq := Z.eqb;
  f32_gt := Z.gtb;
  f32_lt := Z.ltb;
  ParseFloat := parse_decimal
|}.

(** An implementation of [strings.Map(unicode.ToLower, s)] for a world
    whose texts are ASCII, for which [ToLower] does not call it: a byte
    outside ASCII is kept as it is. *)
Definition plain : Unicode := {|
  Map_ToLower := lower_bytes;
  Map_ToLower_ascii := λ c s _, eq_refl;
  Map_ToLower_other :=
    ltac:(intros [[] [] [] [] [] [] [] []] s E;
          first [ by vm_compute in E
                | eexists _, _; split; [reflexivity|left; reflexivity] ])
|}.

Definition ContentTypeJSON : string := "application/json".
Definition ContentTypeJSONP : string := "text/javascript".

Definition codec (contentType extension : string) (callback : bool)
  : Codec unit unit :=
  {| ContentType := contentType;
     FileExtension := extension;
     CanMarshalWithCallback := callback;
     Marshal := λ _ _, (Some [], None);
     Unmarshal := λ _ _, None |}.

Definition json : Codec unit unit := codec ContentTypeJSON "json" false.
Definition jsonp : Codec unit unit := codec ContentTypeJSONP "js" true.
Definition xml : Codec unit unit := codec "application/xml" "xml" false.
(** A codec registered without a content type. *)
Definition untyped : Codec unit unit := codec "" "bin" false.

Definition service (registry : list (Codec unit unit))
  : @WebCodecService unit unit :=
  {| codecs := registry |}.

(** An object without and one with the [Facade] capability, and one whose
    [PublicData] fails. *)
Definition bare : object unit unit := {| raw := tt; facade := None |}.
Definition public : object unit unit :=
  {| raw := tt; facade := Some (λ _, (Some tt, None)) |}.
Definition failing : object unit unit :=
  {| raw := tt; facade := Some (λ _, (None, Some (errors_New "no public data"))) |}.

(** A leaf of the tree with a priority of its own. *)
Definition leaf (name : string) (priority : Z) : AcceptTree.AcceptType :=
  AcceptTree.mkAcceptType [name] None 1 priority None None.

End Sample.

(** ** Vocabulary for the shape of clauses and of the map of clauses *)

(** The byte [sep] occurs in [s]. *)
Fixpoint occurs (sep : ascii) (s : string) : bool :=
  match s with
  | EmptyString => false
  | String c s' => Ascii.eqb c sep || occurs sep s'
  end.

(** The letters of ASCII, each in its two cases. *)
Definition letters : list (ascii * ascii) :=
  zip (list_ascii_of_string "ABCDEFGHIJKLMNOPQRSTUVWXYZ")
      (list_ascii_of_string "abcdefghijklmnopqrstuvwxyz").

(** [a] and [b] are the same byte or the two cases of one letter. *)
Definition same_letter (a b : ascii) : bool :=
  Ascii.eqb a b
  || existsb (λ l, Ascii.eqb a l.1 && Ascii.eqb b l.2
                   || Ascii.eqb a l.2 && Ascii.eqb b l.1)
             letters.

(** [s] and [t] are the same text when the case of the letters is left
    aside. *)
Fixpoint same_text (s t : string) : bool :=
  match s, t with
  | EmptyString, EmptyString => true
  | String a s', String b t' => same_letter a b && same_text s' t'
  | _, _ => false
  end.

(** [sub] occurs in [s] when the case of the letters is left aside: a
    piece of [s] is the same text as [sub]. *)
Definition occurs_in (sub s : string) : Prop :=
  ∃ before piece after,
    s = before +:+ piece +:+ after ∧ same_text piece sub = true.

(** The 256 bytes. *)
Definition all_bytes : list ascii := ascii_of_nat <$> seq 0 256.

Module Grouping.
Section Map.
Context `{Float32}.

(** No key of the map is [==] to a later one. *)
Fixpoint keys_apart
    (types : list (float32 * list WebCodecService.AcceptType)) : Prop :=
  match types with
  | [] => True
  | entry :: rest =>
      Forall (λ e, f32_eq entry.1 e.1 = false) rest ∧ keys_apart rest
  end.

(** The loop of [ParseAcceptTypes] of [web_codec_service.go] once the
    clauses are parsed. *)
Definition group (clauses : list WebCodecService.AcceptType)
  : list (float32 * list WebCodecService.AcceptType) :=
  fold_left
    (λ types x,
       WebCodecService.map_append types (WebCodecService.Priority x) x)
    clauses [].

End Map.
End Grouping.

(** ** More of the concrete world: a priority that is not a number *)

Module Cases.

(** [float32] with NaN: [None] compares false with everything. *)
Definition maybe : Float32 := {|
  float32 := option Z;
  f32_zero := Some 0;
  f32_one := Some 1000;
  f32_eq := λ a b, match a, b with Some x, Some y => x =? y | _, _ => false end;
  f32_gt := λ a b, match a, b with Some x, Some y => x >? y | _, _ => false end;
  f32_lt := λ a b, match a, b with Some x, Some y => x <? y | _, _ => false end;
  ParseFloat := λ s bitSize,
    if String.eqb s "NaN" then Some None
    else Some <$> Sample.parse_decimal s bitSize
|}.

Definition maybe_leaf (name : string) (priority : option Z)
  : @AcceptTree.AcceptType maybe :=
  @AcceptTree.mkAcceptType maybe [name] None 1 priority None None.

(** A codec registered under a content type without a category. *)
Definition slash_json : Codec unit unit := Sample.codec "/json" "json" false.

(** The capital I with a dot, U+0130: in UTF-8 the bytes 196 and 176. *)
Definition capital_I_dot (rest : string) : string :=
  String (ascii_of_nat 196) (String (ascii_of_nat 176) rest).

(** An implementation of [strings.Map(unicode.ToLower, s)] that knows one
    letter outside ASCII: the capital I with a dot is lowered to [i], as
    [unicode.ToLower] does; every other byte outside ASCII is kept. *)
Fixpoint lower_dotted (s : string) : string :=
  match s with
  | EmptyString => EmptyString
  | String c s' =>
      match s' with
      | String d s'' =>
          if Ascii.eqb c (ascii_of_nat 196) && Ascii.eqb d (ascii_of_nat 176)
          then String "i" (lower_dotted s'')
          else String (lower_byte c) (lower_dotted s')
      | EmptyString => String (lower_byte c) EmptyString
      end
  end.

Definition dotted : Unicode := {|
  Map_ToLower := lower_dotted;
  Map_ToLower_ascii :=
    ltac:(intros [[] [] [] [] [] [] [] []] [|d s] E;
          first [ by vm_compute in E | reflexivity ]);
  Map_ToLower_other :=
    ltac:(intros c [|d s] E;
          [|destruct (Ascii.eqb d (ascii_of_nat 176)) eqn:Ed];
          destruct c as [[] [] [] [] [] [] [] []];
          first [ by vm_compute in E
                | eexists _, _;
                  (split; [cbn [lower_dotted]; try rewrite Ed; reflexivity
                          |first [left; reflexivity|right; reflexivity]]) ])
|}.

(** A clause of [web_codec_service.go] with a priority of its own. *)
Definition weighted (name : string) (priority : Z)
  : @WebCodecService.AcceptType Sample.thousandths :=
  {| WebCodecService.ContentTypes := [name];
     WebCodecService.Variables := None;
     WebCodecService.Priority := priority |}.

End Cases.

(** * Proofs *)

(** ** The loops and the string functions *)

Section GoFacts.
Context {A B : Type}.

Lemma first_where_Some (p : A → bool) (l : list A) (x : A) :
  first_where p l = Some x ↔ first_such (λ y, p y = true) l x.
Proof.
  unfold first_such. induction l as [|y l IH]; simpl.
  - split; [discriminate|]. intros (b & a & E & _). by destruct b.
  - destruct (p y) eqn:Ey.
    + split.
      * intros [= ->]. exists [], l. by repeat split.
      * intros ([|z b] & a & E & Hx & Hb); simplify_eq/=; [done|].
        apply Forall_cons in Hb as [Hz _]. congruence.
    + rewrite IH. split.
      * intros (b & a & -> & Hx & Hb). exists (y :: b), a.
        repeat split; [done|]. constructor; [congruence|done].
      * intros ([|z b] & a & E & Hx & Hb); simplify_eq/=; [congruence|].
        apply Forall_cons in Hb as [_ Hb]. by exists b, a.
Qed.

Lemma first_where_None (p : A → bool) (l : list A) :
  first_where p l = None ↔ Forall (λ y, p y = false) l.
Proof.
  induction l as [|y l IH]; simpl.
  - split; [constructor|done].
  - destruct (p y) eqn:Ey.
    + split; [discriminate|]. intros H%Forall_cons. destruct H; congruence.
    + rewrite IH. split; [by constructor|]. by intros [_ ?]%Forall_cons.
Qed.

Lemma first_where_elem (p : A → bool) (l : list A) (x : A) :
  first_where p l = Some x → x ∈ l ∧ p x = true.
Proof.
  intros (b & a & -> & Hx & _)%first_where_Some. split; [|done].
  apply elem_of_app. right. by left.
Qed.

Lemma first_some_elem (f : A → option B) (l : list A) (y : B) :
  first_some f l = Some y → ∃ x, x ∈ l ∧ f x = Some y.
Proof.
  induction l as [|x l IH]; simpl; [discriminate|].
  destruct (f x) eqn:E.
  - intros [= ->]. exists x. split; [by left|done].
  - intros (x' & Hin & Hx')%IH. exists x'. split; [by right|done].
Qed.

End GoFacts.

Lemma append_String (c : ascii) (s t : string) :
  String c s +:+ t = String c (s +:+ t).
Proof. reflexivity. Qed.

Lemma append_empty (t : string) : "" +:+ t = t.
Proof. reflexivity. Qed.

Lemma prefix_append (sub s : string) :
  String.prefix sub s = true ↔ ∃ after, s = sub +:+ after.
Proof.
  revert s. induction sub as [|c sub IH]; intros s; simpl.
  - split; [by exists s|]. intros _. by destruct s.
  - destruct s as [|d s]; simpl.
    + split; [discriminate|]. by intros [? ?].
    + setoid_rewrite append_String.
      destruct (Ascii.ascii_dec c d) as [->|Hne].
      * rewrite IH. split; intros [a E]; exists a; congruence.
      * split; [discriminate|]. intros [a E]. congruence.
Qed.

Lemma Contains_unfold (s sub : string) :
  Contains s sub =
  if String.prefix sub s then true
  else match s with
       | EmptyString => false
       | String _ s' => Contains s' sub
       end.
Proof. by destruct s. Qed.

Lemma Contains_occurs (s sub : string) :
  Contains s sub = true ↔ ∃ before after, s = before +:+ sub +:+ after.
Proof.
  induction s as [|c s IH]; rewrite Contains_unfold.
  - destruct (String.prefix sub "") eqn:E.
    + split; [|done]. intros _. apply prefix_append in E as [a E].
      by exists "", a.
    + split; [discriminate|]. intros ([|d b] & a & Hs); [|discriminate].
      rewrite append_empty in Hs.
      assert (String.prefix sub "" = true); [|congruence].
      apply prefix_append. eauto.
  - destruct (String.prefix sub (String c s)) eqn:E.
    + split; [|done]. intros _. apply prefix_append in E as [a E].
      by exists "", a.
    + rewrite IH. split.
      * intros (b & a & ->). by exists (String c b), a.
      * intros ([|d b] & a & Hs).
        -- rewrite append_empty in Hs.
           assert (String.prefix sub (String c s) = true); [|congruence].
           apply prefix_append. eauto.
        -- rewrite append_String in Hs. injection Hs as -> ->. eauto.
Qed.

(** *** Lower case *)

Lemma all_bytes_elem (c : ascii) : In c all_bytes.
Proof.
  apply list_elem_of_In, list_elem_of_fmap. exists (nat_of_ascii c).
  split; [by rewrite ascii_nat_embedding|].
  apply elem_of_seq. pose proof (nat_ascii_bounded c). lia.
Qed.

(** [lower_byte] identifies exactly the two cases of a letter. *)
Lemma same_letter_lower (a b : ascii) :
  same_letter a b = Ascii.eqb (lower_byte a) (lower_byte b).
Proof.
  assert (forallb
            (λ x, forallb
                    (λ y, Bool.eqb (same_letter x y)
                                   (Ascii.eqb (lower_byte x) (lower_byte y)))
                    all_bytes)
            all_bytes = true) as Hall by (vm_compute; reflexivity).
  rewrite forallb_forall in Hall. specialize (Hall a (all_bytes_elem a)).
  rewrite forallb_forall in Hall. specialize (Hall b (all_bytes_elem b)).
  by apply Bool.eqb_prop in Hall.
Qed.

Lemma lower_byte_slash (c : ascii) : lower_byte c = "/"%char → c = "/"%char.
Proof.
  destruct c as [[] [] [] [] [] [] [] []]; vm_compute; intros E; congruence.
Qed.

Lemma lower_bytes_same_text (s t : string) :
  lower_bytes s = lower_bytes t ↔ same_text s t = true.
Proof.
  revert t. induction s as [|a s IH]; intros [|b t];
    cbn [lower_bytes same_text]; try (split; done).
  rewrite andb_true_iff, same_letter_lower, Ascii.eqb_eq, <- IH.
  split; [by intros [= -> ->]|by intros [-> ->]].
Qed.

Lemma lower_bytes_app (s t : string) :
  lower_bytes (s +:+ t) = lower_bytes s +:+ lower_bytes t.
Proof.
  induction s as [|a s IH]; [done|].
  rewrite append_String. simpl. by rewrite append_String, IH.
Qed.

Lemma lower_bytes_app_inv (s x y : string) :
  lower_bytes s = x +:+ y →
  ∃ s1 s2, s = s1 +:+ s2 ∧ lower_bytes s1 = x ∧ lower_bytes s2 = y.
Proof.
  revert s. induction x as [|c x IH]; intros s E.
  - by exists "", s.
  - rewrite append_String in E. destruct s as [|a s]; [discriminate|].
    simpl in E. injection E as Ha E.
    destruct (IH s E) as (s1 & s2 & -> & H1 & H2).
    exists (String a s1), s2. rewrite append_String. simpl.
    by rewrite Ha, H1.
Qed.

(** Occurrence after the lowering of the bytes is occurrence with the
    case of the letters left aside. *)
Lemma lower_bytes_occurs_in (sub s : string) :
  (∃ before after, lower_bytes s = before +:+ lower_bytes sub +:+ after)
  ↔ occurs_in sub s.
Proof.
  split.
  - intros (b & a & E).
    apply lower_bytes_app_inv in E as (s1 & s23 & -> & _ & E).
    apply lower_bytes_app_inv in E as (s2 & s3 & -> & E & _).
    exists s1, s2, s3. split; [done|]. by apply lower_bytes_same_text.
  - intros (b & p & a & -> & E). apply lower_bytes_same_text in E.
    exists (lower_bytes b), (lower_bytes a).
    by rewrite !lower_bytes_app, E.
Qed.

Section Lowering.
Context {G : Unicode}.

Lemma Contains_ci_substring (s sub : string) :
  Contains (ToLower s) (ToLower sub) = true ↔ ci_substring sub s.
Proof. apply Contains_occurs. Qed.

(** On a string of ASCII [strings.ToLower] is the loop over the bytes. *)
Lemma ToLower_ascii (s : string) :
  ascii_text s = true → ToLower s = lower_bytes s.
Proof. unfold ToLower. by intros ->. Qed.

(** The first byte of a lowered string. *)
Lemma ToLower_head (c : ascii) (s : string) :
  ∃ d t, ToLower (String c s) = String d t
         ∧ (d = lower_byte c
            ∨ ascii_byte c = false
              ∧ (ascii_byte d = false ∨ small_letter d = true)).
Proof.
  unfold ToLower. destruct (ascii_text (String c s)) eqn:E.
  - exists (lower_byte c), (lower_bytes s). split; [done|by left].
  - destruct (ascii_byte c) eqn:Hc.
    + rewrite Map_ToLower_ascii by done. eexists _, _. split; [done|by left].
    + destruct (Map_ToLower_other c s Hc) as (d & t & -> & Hd).
      exists d, t. split; [done|by right].
Qed.

Lemma ToLower_empty (s : string) : ToLower s = "" ↔ s = "".
Proof.
  split; [|by intros ->]. destruct s as [|c s]; [done|].
  by destruct (ToLower_head c s) as (d & t & -> & _).
Qed.

(** Only a slash is lowered to a slash. *)
Lemma ToLower_slash (s rest : string) :
  ToLower s = String "/" rest → ∃ s', s = String "/" s'.
Proof.
  destruct s as [|c s]; [done|].
  destruct (ToLower_head c s) as (d & t & -> & [->|[_ Hd]]); intros [= Hc _].
  - apply lower_byte_slash in Hc as ->. by exists s.
  - subst d. by destruct Hd.
Qed.

(** On texts of ASCII the two tests of the code are the tests with the
    case of the letters left aside. *)
Lemma ci_substring_ascii (sub s : string) :
  ascii_text sub = true → ascii_text s = true →
  ci_substring sub s ↔ occurs_in sub s.
Proof.
  intros Hsub Hs. unfold ci_substring.
  rewrite (ToLower_ascii _ Hsub), (ToLower_ascii _ Hs).
  apply lower_bytes_occurs_in.
Qed.

Lemma ToLower_same_text (s t : string) :
  ascii_text s = true → ascii_text t = true →
  ToLower s = ToLower t ↔ same_text s t = true.
Proof.
  intros Hs Ht. rewrite (ToLower_ascii _ Hs), (ToLower_ascii _ Ht).
  apply lower_bytes_same_text.
Qed.

End Lowering.

Lemma Contains_empty (sub : string) : Contains "" sub = true ↔ sub = "".
Proof. destruct sub; simpl; split; done. Qed.

Lemma len_zero (s : string) : (len s =? 0) = true ↔ s = "".
Proof.
  unfold len. destruct s; simpl; [done|]. split; [|done]. intros H. lia.
Qed.

(** ** The registry *)

Section Registry.
Context {V O : Type}.
Implicit Types (s : @WebCodecService V O) (codec : Codec V O).

Lemma assertCodecs_nonempty s : codecs s ≠ [] → assertCodecs s = Ok tt.
Proof.
  unfold assertCodecs, len_slice. destruct (codecs s); [done|]. intros _.
  simpl. done.
Qed.

Lemma assertCodecs_empty s : codecs s = [] → panics (assertCodecs s).
Proof. unfold assertCodecs. intros ->. simpl. by eexists. Qed.

Lemma first_codec_nonempty s :
  codecs s ≠ [] → ∃ codec, first_codec s = Ok codec ∧ codecs s !! 0%nat = Some codec.
Proof.
  unfold first_codec, index, len_slice. destruct (codecs s) as [|c l]; [done|].
  intros _. by exists c.
Qed.

End Registry.

Lemma first_such_iff {A} (P Q : A → Prop) (l : list A) (x : A) :
  (∀ y, P y ↔ Q y) → first_such P l x ↔ first_such Q l x.
Proof.
  intros HPQ. unfold first_such.
  split; intros (b & a & -> & Hx & Hb); exists b, a; (split; [done|]);
    (split; [by apply HPQ|]); eapply Forall_impl; [done| |done|];
    intros y Hy Hy'; apply Hy; by apply HPQ.
Qed.

Lemma first_such_iff_elem {A} (P Q : A → Prop) (l : list A) (x : A) :
  Forall (λ y, P y ↔ Q y) l → first_such P l x ↔ first_such Q l x.
Proof.
  intros HPQ. unfold first_such.
  split; intros (b & a & -> & Hx & Hb); exists b, a; (split; [done|]);
    apply Forall_app in HPQ as [Hbefore [Hhere _]%Forall_cons];
    (split; [by apply Hhere|]);
    apply Forall_forall; intros y Hy Hy';
    rewrite Forall_forall in Hb, Hbefore;
    apply (Hb y Hy); by apply (Hbefore y Hy).
Qed.

Lemma Forall_iff_elem {A} (P Q : A → Prop) (l : list A) :
  Forall (λ y, P y ↔ Q y) l → Forall P l ↔ Forall Q l.
Proof.
  induction 1 as [|y l Hy _ IH]; [done|]. by rewrite !Forall_cons, Hy, IH.
Qed.

(** ** [GetCodec] *)

Section Interpreting.
Context {V O : Type} {G : Unicode} (JSON : string).
Implicit Types (s : @WebCodecService V O) (codec : Codec V O).

Lemma GetCodec_test_nonempty (contentType : string) codec :
  contentType ≠ "" →
  GetCodec_test JSON contentType codec = true
  ↔ ci_substring (ContentType codec) contentType.
Proof.
  intros Hne. unfold GetCodec_test. rewrite <- Contains_ci_substring.
  destruct (len contentType =? 0) eqn:E; [|done].
  by apply len_zero in E.
Qed.

Lemma GetCodec_test_empty codec :
  GetCodec_test JSON "" codec = true
  ↔ ContentType codec = JSON ∨ ContentType codec = "".
Proof.
  unfold GetCodec_test. change (ToLower "") with "".
  rewrite orb_true_iff. simpl andb.
  rewrite String.eqb_eq, Contains_empty, ToLower_empty. done.
Qed.

Lemma GetCodec_cases s (contentType : string) :
  codecs s ≠ [] →
  GetCodec JSON s contentType =
  match first_where (GetCodec_test JSON contentType) (codecs s) with
  | Some codec => Ok (Some codec, None)
  | None => Ok (None, Some (errors_New (Sprintf_not_supported contentType)))
  end.
Proof. intros Hs. unfold GetCodec. by rewrite assertCodecs_nonempty. Qed.

(** C7: on a non-empty registry and a non-empty content type, [GetCodec]
    returns a codec exactly when it is the first registered codec whose
    content type occurs in the given one once [strings.ToLower] has
    lowered both; it returns the error whose message quotes the given
    content type exactly when no registered codec matches in this way;
    and it does one of the two.  For content types of ASCII the match is
    the occurrence with the case of the letters left aside. *)
Theorem GetCodec_first_substring_match s (contentType : string) :
  codecs s ≠ [] → contentType ≠ "" →
  (∀ codec,
      GetCodec JSON s contentType = Ok (Some codec, None)
      ↔ first_such (λ c, ci_substring (ContentType c) contentType)
                   (codecs s) codec)
  ∧ (GetCodec JSON s contentType
     = Ok (None,
           Some (errors_New ("Content type " +:+ String dquote contentType
                             +:+ String dquote " is not supported.")))
     ↔ Forall (λ c, ¬ ci_substring (ContentType c) contentType) (codecs s))
  ∧ ((∃ codec, GetCodec JSON s contentType = Ok (Some codec, None))
     ∨ GetCodec JSON s contentType
       = Ok (None,
             Some (errors_New ("Content type " +:+ String dquote contentType
                               +:+ String dquote " is not supported."))))
  ∧ (ascii_text contentType = true →
     Forall (λ c, ascii_text (ContentType c) = true) (codecs s) →
     (∀ codec,
         GetCodec JSON s contentType = Ok (Some codec, None)
         ↔ first_such (λ c, occurs_in (ContentType c) contentType)
                      (codecs s) codec)
     ∧ (GetCodec JSON s contentType
        = Ok (None,
              Some (errors_New ("Content type " +:+ String dquote contentType
                                +:+ String dquote " is not supported.")))
        ↔ Forall (λ c, ¬ occurs_in (ContentType c) contentType) (codecs s))).
Proof.
  intros Hs Hct. rewrite GetCodec_cases by done. unfold Sprintf_not_supported.
  pose proof (λ c, GetCodec_test_nonempty contentType c Hct) as Htest.
  assert (∀ codec,
             match first_where (GetCodec_test JSON contentType) (codecs s) with
             | Some c => Ok (Some c, None)
             | None =>
                 Ok (None,
                     Some (errors_New
                             ("Content type " +:+ String dquote contentType
                              +:+ String dquote " is not supported.")))
             end = Ok (Some codec, None)
             ↔ first_such (λ c, ci_substring (ContentType c) contentType)
                          (codecs s) codec) as Hfound.
  { intros codec.
    rewrite <- (first_such_iff _ _ _ _ Htest), <- first_where_Some.
    destruct (first_where _ _); split; congruence. }
  assert (match first_where (GetCodec_test JSON contentType) (codecs s) with
          | Some c => Ok (Some c, None)
          | None =>
              Ok (None,
                  Some (errors_New
                          ("Content type " +:+ String dquote contentType
                           +:+ String dquote " is not supported.")))
          end
          = Ok (None,
                Some (errors_New
                        ("Content type " +:+ String dquote contentType
                         +:+ String dquote " is not supported.")))
          ↔ Forall (λ c, ¬ ci_substring (ContentType c) contentType)
                   (codecs s)) as Hnone.
  { destruct (first_where _ _) as [c|] eqn:E.
    + split; [discriminate|]. intros Hall.
      apply first_where_elem in E as [Hin Hc].
      rewrite Forall_forall in Hall. destruct (Hall c Hin). by apply Htest.
    + split; [|done]. intros _. apply first_where_None in E.
      eapply Forall_impl; [done|]. intros c Hc Hsub.
      apply Htest in Hsub. simpl in Hc. congruence. }
  split; [done|]. split; [done|]. split.
  - destruct (first_where _ _); eauto.
  - intros Hascii Hall. split.
    + intros codec. rewrite Hfound. apply first_such_iff_elem.
      eapply Forall_impl; [done|]. intros c Hc. by apply ci_substring_ascii.
    + rewrite Hnone. apply Forall_iff_elem.
      eapply Forall_impl; [done|]. intros c Hc.
      by rewrite ci_substring_ascii.
Qed.

(** The error [GetCodec] returns is made on the spot: it is never the
    package variable [ErrorContentTypeNotSupported]. *)
Remark GetCodec_error_fresh (contentType : string) :
  errors_New (Sprintf_not_supported contentType) ≠ ErrorContentTypeNotSupported.
Proof. unfold Sprintf_not_supported, ErrorContentTypeNotSupported. discriminate. Qed.

(** C8, as the code has it: on a non-empty registry, [GetCodec] with the
    empty content type returns the first registered codec whose content
    type is the JSON content type or is empty; so it returns the first
    JSON codec when no codec registered before it has an empty content
    type. *)
Theorem GetCodec_empty_content_type s :
  codecs s ≠ [] →
  (∀ codec,
      GetCodec JSON s "" = Ok (Some codec, None)
      ↔ first_such (λ c, ContentType c = JSON ∨ ContentType c = "")
                   (codecs s) codec)
  ∧ (∀ before codec after,
        codecs s = before ++ codec :: after →
        ContentType codec = JSON →
        Forall (λ c, ContentType c ≠ JSON ∧ ContentType c ≠ "") before →
        GetCodec JSON s "" = Ok (Some codec, None)).
Proof.
  intros Hs. rewrite GetCodec_cases by done.
  assert (∀ codec,
             match first_where (GetCodec_test JSON "") (codecs s) with
             | Some c => Ok (Some c, None)
             | None => Ok (None, Some (errors_New (Sprintf_not_supported "")))
             end = Ok (Some codec, None)
             ↔ first_such (λ c, ContentType c = JSON ∨ ContentType c = "")
                          (codecs s) codec) as Hfirst.
  { intros codec.
    rewrite <- (first_such_iff _ _ _ _ GetCodec_test_empty), <- first_where_Some.
    destruct (first_where _ _); split; congruence. }
  split; [done|]. intros before codec after Hl Hjson Hbefore.
  apply Hfirst. exists before, after. split; [done|]. split; [by left|].
  eapply Forall_impl; [done|]. intros c [? ?] [?|?]; done.
Qed.

End Interpreting.

(** ** [MarshalWithCodec] *)

Section Marshalling.
Context {V O : Type}.
Implicit Types (s : @WebCodecService V O) (codec : Codec V O)
               (obj : object V O) (options : O).

(** C9: on a non-empty registry, [MarshalWithCodec] hands the codec the
    object itself when the object has no [Facade] capability and the
    public data otherwise, and returns what [Marshal] returns; when the
    projection fails its error is returned and [Marshal] is not called. *)
Theorem MarshalWithCodec_public_data s codec obj options :
  codecs s ≠ [] →
  (facade obj = None →
     MarshalWithCodec s codec obj options
     = Ok (Marshal codec (Some (raw obj)) options,
           [call_PublicData obj options;
            call_Marshal codec (Some (raw obj)) options]))
  ∧ (∀ publicData projection,
        facade obj = Some publicData →
        publicData options = (projection, None) →
        MarshalWithCodec s codec obj options
        = Ok (Marshal codec projection options,
              [call_PublicData obj options;
               call_Marshal codec projection options]))
  ∧ (∀ publicData projection e,
        facade obj = Some publicData →
        publicData options = (projection, Some e) →
        ∃ calls,
          MarshalWithCodec s codec obj options = Ok ((None, Some e), calls)
          ∧ Forall (λ c, ¬ invokes_Marshal c) calls).
Proof.
  intros Hs. unfold MarshalWithCodec, PublicData.
  rewrite assertCodecs_nonempty by done. simpl.
  split; [|split].
  - by intros ->.
  - intros f p -> Hf. by rewrite Hf.
  - intros f p e -> Hf. rewrite Hf. eexists. split; [done|].
    constructor; [|constructor]. simpl. tauto.
Qed.

End Marshalling.

(** ** [NewWebCodecService] *)

(** C10: the service [NewWebCodecService] builds holds the six default
    codecs in the order JSON, JSONP, MsgPack, BSON, CSV, XML, so that
    [assertCodecs] returns on it. *)
Theorem NewWebCodecService_default_codecs {V O : Type}
    (JsonCodec JsonPCodec MsgpackCodec BsonCodec CsvCodec SimpleXmlCodec : Codec V O) :
  let s := NewWebCodecService JsonCodec JsonPCodec MsgpackCodec BsonCodec
                              CsvCodec SimpleXmlCodec in
  Codecs s = [JsonCodec; JsonPCodec; MsgpackCodec; BsonCodec; CsvCodec;
              SimpleXmlCodec]
  ∧ length (Codecs s) = 6%nat
  ∧ Codecs s !! 0%nat = Some JsonCodec
  ∧ Codecs s ≠ []
  ∧ assertCodecs s = Ok tt.
Proof. simpl. repeat split; done. Qed.

(** ** The map of clauses ([web_codec_service.go]) *)

Section Buckets.
Context `{F : Float32} (order : Float32Order).
Import WebCodecService.

Lemma bucket_of_later (clauses : list AcceptType) (x : AcceptType) entry :
  bucket_of clauses entry → bucket_of (clauses ++ [x]) entry.
Proof. intros [Hsub Hkey]. split; [by apply sublist_inserts_r|done]. Qed.

Lemma map_append_bucket_of (types : list (float32 * list AcceptType))
    (clauses : list AcceptType) (x : AcceptType) :
  Forall (bucket_of clauses) types →
  Forall (bucket_of (clauses ++ [x])) (map_append types (Priority x) x).
Proof.
  induction types as [|[k b] types IH]; intros Hall; simpl.
  - repeat constructor; simpl.
    + by apply sublist_inserts_l.
    + apply (f32_eq_refl order).
  - apply Forall_cons in Hall as [[Hsub Hkey] Hall].
    destruct (f32_eq k (Priority x)) eqn:E.
    + constructor.
      * split; simpl in *; [by apply sublist_app|].
        apply Forall_app. by repeat constructor.
      * eapply Forall_impl; [done|]. intros e. apply bucket_of_later.
    + constructor; [by apply bucket_of_later|by apply IH].
Qed.

Lemma map_append_concat (types : list (float32 * list AcceptType))
    (k : float32) (x : AcceptType) :
  concat (snd <$> map_append types k x) ≡ₚ concat (snd <$> types) ++ [x].
Proof.
  induction types as [|[k' b] types IH]; simpl; [done|].
  destruct (f32_eq k' k); simpl.
  - rewrite <- !app_assoc. apply Permutation_app_head, Permutation_app_comm.
  - by rewrite IH, app_assoc.
Qed.

Lemma WebCodecService_loop_buckets (acceptPieces : list string) types types' :
  ParseAcceptTypes_loop types acceptPieces = Ok types' →
  ∃ clauses',
    header_clauses acceptPieces = Ok clauses'
    ∧ (∀ clauses, Forall (bucket_of clauses) types →
                  Forall (bucket_of (clauses ++ clauses')) types')
    ∧ concat (snd <$> types') ≡ₚ concat (snd <$> types) ++ clauses'.
Proof.
  revert types. induction acceptPieces as [|p ps IH]; intros types; simpl.
  - intros [= <-]. exists []. split; [done|].
    split; [intros clauses; by rewrite app_nil_r|by rewrite app_nil_r].
  - destruct (NewAcceptType p) as [x|]; simpl; [|done].
    intros (clauses' & -> & Hb & Hp)%IH. exists (x :: clauses').
    split; [done|]. split.
    + intros clauses Hall. rewrite (cons_middle x clauses clauses'), app_assoc.
      apply Hb. by apply map_append_bucket_of.
    + rewrite Hp, map_append_concat. by rewrite <- app_assoc.
Qed.

(** The map of [web_codec_service.go]: every bucket lists clauses of the
    priority of its key in header order, and the buckets together hold the
    clauses of the header. *)
Lemma WebCodecService_buckets (accept : string) types :
  ParseAcceptTypes accept = Ok types →
  ∃ clauses,
    header_clauses (Split accept ",") = Ok clauses
    ∧ Forall (bucket_of clauses) types
    ∧ concat (snd <$> types) ≡ₚ clauses.
Proof.
  intros (clauses & Hc & Hb & Hp)%WebCodecService_loop_buckets.
  exists clauses. split; [done|]. split; [|done].
  by apply (Hb []).
Qed.
End Buckets.

(** ** The tree of clauses ([part_000]) *)

Import AcceptTree.

Section TreeFacts.
Context `{F : Float32}.
Implicit Types (a next : AcceptType).

Lemma store_middle {A} (pre post : list A) (old x : A) :
  store (pre ++ old :: post) (Z.of_nat (length pre)) x = Ok (pre ++ x :: post).
Proof.
  unfold store, len_slice. rewrite length_app. simpl length.
  destruct (_ || _) eqn:E.
  - apply orb_true_iff in E as [E|E]; [apply Z.ltb_lt in E|apply Z.leb_le in E]; lia.
  - rewrite Nat2Z.id. f_equal.
    replace (length pre) with (length pre + 0)%nat by lia.
    by rewrite insert_app_r.
Qed.

(** Storing [xs] from index [start] on overwrites the [length xs] elements
    that sit there. *)
Lemma store_all_middle {A} (xs pre old post : list A) (start : Z) :
  start = Z.of_nat (length pre) → length old = length xs →
  store_all (pre ++ old ++ post) start xs = Ok (pre ++ xs ++ post).
Proof.
  revert pre old start. induction xs as [|x xs IH]; intros pre old start -> Hlen.
  - by destruct old.
  - destruct old as [|o old]; [done|]. simpl in Hlen.
    simpl. rewrite store_middle. simpl.
    assert (pre ++ x :: old ++ post = (pre ++ [x]) ++ old ++ post) as ->
      by (by rewrite <- app_assoc).
    rewrite (IH (pre ++ [x]) old); [by rewrite <- app_assoc| |lia].
    rewrite length_app. simpl. lia.
Qed.

Lemma inorder_length_well_sized a :
  well_sized a → Z.of_nat (length (inorder a)) = Size a.
Proof.
  induction a as [cts vars size priority lchild rchild IHl IHr]
    using AcceptType_ind.
  simpl. intros (-> & Hl & Hr). rewrite length_app. simpl length.
  destruct lchild as [l|], rchild as [r|]; simpl;
    try rewrite <- (IHl Hl); try rewrite <- (IHr Hr); lia.
Qed.

Lemma make_replicate {A} (zero : A) (n : nat) :
  make zero (Z.of_nat n) = Ok (replicate n zero).
Proof.
  unfold make. destruct (Z.of_nat n <? 0) eqn:E; [apply Z.ltb_lt in E; lia|].
  by rewrite Nat2Z.id.
Qed.

(** On a tree whose [Size] fields count its nodes, [ToSlice] stays within
    the slice it makes and yields the nodes from left to right. *)
Lemma ToSlice_inorder a : well_sized a → ToSlice a = Ok (inorder a).
Proof.
  induction a as [cts vars size priority lchild rchild IHl IHr]
    using AcceptType_ind.
  intros Hws. pose proof (inorder_length_well_sized _ Hws) as Hlen.
  destruct Hws as (Hsize & Hl & Hr). simpl in Hlen. simpl.
  set (this := mkAcceptType cts vars size priority lchild rchild) in *.
  set (ls := match lchild with Some l => inorder l | None => [] end) in *.
  set (rs := match rchild with Some r => inorder r | None => [] end) in *.
  assert (Z.of_nat (length ls) = Size_of lchild) as Hls.
  { subst ls. destruct lchild; [by apply inorder_length_well_sized|done]. }
  assert (Z.of_nat (length rs) = Size_of rchild) as Hrs.
  { subst rs. destruct rchild; [by apply inorder_length_well_sized|done]. }
  replace size with (Z.of_nat (length ls + (1 + length rs))) by lia.
  rewrite make_replicate, !replicate_add. simpl.
  assert (∀ T (k : Z * list AcceptType → result T),
             (match lchild with
              | Some l =>
                  ToSlice l ≫= λ leftSlice,
                    store_all (replicate (length ls) zero
                               ++ zero :: replicate (length rs) zero) 0 leftSlice
                    ≫= λ typeSlice', Ok (Size l, typeSlice')
              | None => Ok (0, replicate (length ls) zero
                               ++ zero :: replicate (length rs) zero)
              end ≫= k)
             = k (Z.of_nat (length ls), ls ++ zero :: replicate (length rs) zero))
    as Hleft.
  { intros T k. subst ls. destruct lchild as [l|]; simpl in *; [|done].
    rewrite (IHl Hl). simpl.
    pose proof (store_all_middle (inorder l) []
                  (replicate (length (inorder l)) zero)
                  (zero :: replicate (length rs) zero) 0 eq_refl
                  (length_replicate _ _)) as E.
    simpl in E. rewrite E. simpl. by rewrite Hls. }
  rewrite Hleft. simpl. rewrite store_middle. simpl.
  subst rs. destruct rchild as [r|]; simpl in *; [|done].
  rewrite (IHr Hr). simpl.
  assert (ls ++ this :: replicate (length (inorder r)) zero
          = (ls ++ [this]) ++ replicate (length (inorder r)) zero ++ []) as ->
    by (by rewrite <- app_assoc, app_nil_r).
  rewrite (store_all_middle (inorder r) (ls ++ [this]) _ []).
  - by rewrite <- app_assoc, app_nil_r.
  - rewrite length_app. simpl. lia.
  - by rewrite length_replicate.
Qed.


Lemma inorder_clauses cts vars size priority lchild rchild :
  clause <$> inorder (mkAcceptType cts vars size priority lchild rchild)
  = clauses_of lchild ++ (cts, vars, priority) :: clauses_of rchild.
Proof.
  simpl. rewrite fmap_app. simpl. by destruct lchild, rchild.
Qed.

Lemma Forall_priority (Q : float32 → Prop) (l : list AcceptType) :
  Forall (λ x, Q (Priority x)) l ↔ Forall (λ c, Q c.2) (clause <$> l).
Proof. by rewrite Forall_fmap. Qed.

Lemma fresh_inorder next : fresh next → inorder next = [next].
Proof. destruct next as [c v s p [l|] [r|]]; intros (? & ? & ?); by simplify_eq/=. Qed.

Lemma fresh_well_sized next : fresh next → well_sized next.
Proof. destruct next as [c v s p [l|] [r|]]; intros (? & ? & ?); by simplify_eq/=. Qed.

Lemma fresh_ordered next : fresh next → ordered next.
Proof. destruct next as [c v s p [l|] [r|]]; intros (? & ? & ?); by simplify_eq/=. Qed.

Context (order : Float32Order).

Lemma f32_eq_ge (x y : float32) :
  f32_eq x y = true → f32_ge x y = true ∧ f32_ge y x = true.
Proof.
  intros E. unfold f32_ge. rewrite E, (f32_eq_sym order _ _ E). done.
Qed.

Lemma f32_gt_ge (x y : float32) : f32_gt x y = true → f32_ge x y = true.
Proof. intros E. unfold f32_ge. rewrite E. apply orb_true_r. Qed.

Lemma f32_lt_ge (x y : float32) : f32_lt x y = true → f32_ge y x = true.
Proof. rewrite (f32_lt_gt order). apply f32_gt_ge. Qed.

(** [Append] keeps the sizes right and the priorities ordered, and adds the
    clause of [next] to those of the tree. *)
Lemma Append_invariants a next :
  fresh next → well_sized a → ordered a →
  well_sized (Append a next)
  ∧ Size (Append a next) = Size a + 1
  ∧ ordered (Append a next)
  ∧ clause <$> inorder (Append a next) ≡ₚ clause next :: (clause <$> inorder a).
Proof.
  intros Hnext.
  pose proof (fresh_inorder _ Hnext) as Hin.
  pose proof (fresh_well_sized _ Hnext) as Hwn.
  pose proof (fresh_ordered _ Hnext) as Hon.
  assert (Size next = 1) as Hsn by apply Hnext.
  induction a as [cts vars size priority lchild rchild IHl IHr]
    using AcceptType_ind.
  intros (Hsize & Hwl & Hwr) (Hol & Hor).
  rewrite inorder_clauses.
  assert (∀ l, lchild = Some l →
            f32_ge (Priority next) priority = true →
            let a' := incr_Size (set_Left (mkAcceptType cts vars size priority lchild rchild) (Append l next)) in
            well_sized a' ∧ Size a' = size + 1 ∧ ordered a'
            ∧ clause <$> inorder a' ≡ₚ clause next :: (clauses_of lchild ++ (cts, vars, priority) :: clauses_of rchild)) as Hleft.
  { intros l -> Hge a'. destruct Hol as [Hbl Hol].
    destruct (IHl Hwl Hol) as (W & S & Or & P). subst a'.
    unfold incr_Size, set_Left. cbn [ContentTypes Variables Size Priority Left Right].
    rewrite inorder_clauses. cbn [clauses_of].
    split; [|split; [|split]].
    - cbn. split; [|split; done]. rewrite S. simpl in Hsize. lia.
    - done.
    - cbn [ordered]. split; [split; [|done]|done].
      apply (Forall_priority (λ p, f32_ge p priority = true)).
      rewrite P. constructor; [done|].
      by apply (Forall_priority (λ p, f32_ge p priority = true)).
    - rewrite P. done. }
  assert (∀ r, rchild = Some r →
            f32_ge priority (Priority next) = true →
            let a' := incr_Size (set_Right (mkAcceptType cts vars size priority lchild rchild) (Append r next)) in
            well_sized a' ∧ Size a' = size + 1 ∧ ordered a'
            ∧ clause <$> inorder a' ≡ₚ clause next :: (clauses_of lchild ++ (cts, vars, priority) :: clauses_of rchild)) as Hright.
  { intros r -> Hge a'. destruct Hor as [Hbr Hor].
    destruct (IHr Hwr Hor) as (W & S & Or & P). subst a'.
    unfold incr_Size, set_Right. cbn [ContentTypes Variables Size Priority Left Right].
    rewrite inorder_clauses. cbn [clauses_of].
    split; [|split; [|split]].
    - cbn. split; [|split; done]. rewrite S. simpl in Hsize. lia.
    - done.
    - cbn [ordered]. split; [done|split; [|done]].
      apply (Forall_priority (λ p, f32_ge priority p = true)).
      rewrite P. constructor; [done|].
      by apply (Forall_priority (λ p, f32_ge priority p = true)).
    - rewrite P, <- !Permutation_middle. apply perm_swap. }
  assert (lchild = None →
            f32_ge (Priority next) priority = true →
            let a' := incr_Size (set_Left (mkAcceptType cts vars size priority lchild rchild) next) in
            well_sized a' ∧ Size a' = size + 1 ∧ ordered a'
            ∧ clause <$> inorder a' ≡ₚ clause next :: (clauses_of lchild ++ (cts, vars, priority) :: clauses_of rchild)) as Hleft0.
  { intros -> Hge a'. subst a'.
    unfold incr_Size, set_Left. cbn [ContentTypes Variables Size Priority Left Right].
    rewrite inorder_clauses. cbn [clauses_of]. rewrite Hin.
    split; [|split; [|split]].
    - cbn. split; [|split; done]. simpl in Hsize. lia.
    - done.
    - cbn [ordered]. rewrite Hin. split; [split; [|done]|done].
      by repeat constructor.
    - done. }
  assert (rchild = None →
            f32_ge priority (Priority next) = true →
            let a' := incr_Size (set_Right (mkAcceptType cts vars size priority lchild rchild) next) in
            well_sized a' ∧ Size a' = size + 1 ∧ ordered a'
            ∧ clause <$> inorder a' ≡ₚ clause next :: (clauses_of lchild ++ (cts, vars, priority) :: clauses_of rchild)) as Hright0.
  { intros -> Hge a'. subst a'.
    unfold incr_Size, set_Right. cbn [ContentTypes Variables Size Priority Left Right].
    rewrite inorder_clauses. cbn [clauses_of]. rewrite Hin.
    split; [|split; [|split]].
    - cbn. split; [|split; done]. simpl in Hsize. destruct lchild; simpl in *; lia.
    - done.
    - cbn [ordered]. rewrite Hin. split; [done|split; [|done]].
      by repeat constructor.
    - simpl. rewrite <- !Permutation_middle. apply perm_swap. }
  cbn [Append].
  destruct (f32_eq priority (Priority next)) eqn:Eeq.
  { apply f32_eq_ge in Eeq as [Hge1 Hge2].
    destruct lchild as [l|]; [|by apply Hleft0].
    destruct rchild as [r|]; [|by apply Hright0].
    destruct (Size r <=? Size l); [by apply Hright|by apply Hleft]. }
  destruct (f32_gt (Priority next) priority) eqn:Egt.
  { apply f32_gt_ge in Egt.
    destruct lchild as [l|]; [by apply Hleft|by apply Hleft0]. }
  destruct (f32_lt (Priority next) priority) eqn:Elt.
  { apply f32_lt_ge in Elt.
    destruct rchild as [r|]; [by apply Hright|by apply Hright0]. }
  destruct (f32_total order (Priority next) priority) as [E|[E|E]]; [|congruence..].
  apply (f32_eq_sym order) in E. congruence.
Qed.

(** Read from left to right, an ordered tree is in descending order. *)
Lemma ordered_descending a : ordered a → descending (inorder a).
Proof.
  induction a as [cts vars size priority lchild rchild IHl IHr]
    using AcceptType_ind.
  intros (Hol & Hor). cbn [inorder].
  set (this := mkAcceptType cts vars size priority lchild rchild).
  assert (Forall (λ x, f32_ge (Priority x) priority = true)
                 (match lchild with Some l => inorder l | None => [] end)
          ∧ descending (match lchild with Some l => inorder l | None => [] end))
    as [Hbl Hsl].
  { destruct lchild as [l|]; [|split; constructor].
    destruct Hol as [? ?]. split; [done|by apply IHl]. }
  assert (Forall (λ x, f32_ge priority (Priority x) = true)
                 (match rchild with Some r => inorder r | None => [] end)
          ∧ descending (match rchild with Some r => inorder r | None => [] end))
    as [Hbr Hsr].
  { destruct rchild as [r|]; [|split; constructor].
    destruct Hor as [? ?]. split; [done|by apply IHr]. }
  apply StronglySorted_app_2; [|done|by constructor].
  intros x1 x2 H1 H2. rewrite Forall_forall in Hbl, Hbr.
  apply elem_of_cons in H2 as [->|H2]; [by apply Hbl|].
  eapply (f32_ge_trans order); [by apply Hbl|by apply Hbr].
Qed.

(** The loop over the parameter segments returns only when there is
    none: the map it writes to is nil. *)
Lemma parse_variables_nil_map (variables : list string) (m : map_string) :
  Clause.parse_variables None variables = Ok m → variables = [] ∧ m = None.
Proof.
  destruct variables as [|v rest]; simpl; [by intros [= <-]|].
  unfold Clause.parse_variable.
  destruct (index (Split v "=") 0); simpl; [|done].
  destruct (index (Split v "=") 1); simpl; done.
Qed.

Lemma parse_Ok (accept : string) types vars priority :
  Clause.parse accept = Ok (types, vars, priority) →
  vars = None ∧ priority = f32_one.
Proof.
  unfold Clause.parse.
  destruct (slice_from_1 _) as [variables|]; simpl; [|done].
  destruct (Clause.parse_variables None variables) as [m|] eqn:E; simpl; [|done].
  apply parse_variables_nil_map in E as [-> ->].
  destruct (index _ 0) as [typesString|]; simpl; [|done].
  destruct (index _ 0) as [types0|]; simpl; [|done].
  destruct (slice_from _ _) as [subtype|]; simpl; [|done].
  destruct (store _ _ _); simpl; [|done].
  by intros [= <- <- <-].
Qed.

(** Every clause [NewAcceptType] returns is a leaf without parameters and
    of priority 1.0. *)
Lemma NewAcceptType_Ok (accept : string) next :
  NewAcceptType accept = Ok next →
  fresh next ∧ Variables next = None ∧ Priority next = f32_one.
Proof.
  unfold NewAcceptType.
  destruct (Clause.parse accept) as [[[types vars] priority]|] eqn:E;
    simpl; [|done].
  apply parse_Ok in E as [-> ->]. by intros [= <-].
Qed.

Lemma header_clauses_fresh (acceptPieces : list string) leaves :
  header_clauses acceptPieces = Ok leaves → Forall fresh leaves.
Proof.
  revert leaves. induction acceptPieces as [|p ps IH]; simpl; intros leaves.
  - by intros [= <-].
  - destruct (NewAcceptType p) as [n|] eqn:E; simpl; [|done].
    destruct (header_clauses ps) as [ns|]; simpl; [|done].
    intros [= <-]. constructor; [by apply NewAcceptType_Ok in E as [? ?]|].
    by apply IH.
Qed.

(** The loop of [ParseAcceptTypes] parses the clauses and appends them in
    header order. *)
Lemma ParseAcceptTypes_loop_grow (acceptPieces : list string) root :
  ParseAcceptTypes_loop root acceptPieces
  = leaves ← header_clauses acceptPieces; Ok (fold_left grow leaves root).
Proof.
  revert root. induction acceptPieces as [|p ps IH]; intros root; simpl; [done|].
  destruct (NewAcceptType p) as [n|]; simpl; [|done].
  rewrite IH. by destruct (header_clauses ps).
Qed.

Lemma grow_invariants leaves a :
  Forall fresh leaves → well_sized a → ordered a →
  ∃ a', fold_left grow leaves (Some a) = Some a'
        ∧ well_sized a' ∧ ordered a'
        ∧ clause <$> inorder a' ≡ₚ (clause <$> inorder a) ++ (clause <$> leaves).
Proof.
  intros Hleaves. revert a.
  induction Hleaves as [|n leaves Hn _ IH]; intros a Hw Ho; simpl.
  - exists a. by rewrite app_nil_r.
  - destruct (Append_invariants a n Hn Hw Ho) as (Hw' & _ & Ho' & P).
    destruct (IH _ Hw' Ho') as (a' & E & Hw'' & Ho'' & P').
    exists a'. split; [done|]. split; [done|]. split; [done|].
    rewrite P', P. by rewrite <- Permutation_middle.
Qed.

Lemma build_descending first rest :
  Forall fresh (first :: rest) →
  ∃ root typeSlice,
    fold_left grow (first :: rest) None = Some root
    ∧ ToSlice root = Ok typeSlice
    ∧ descending typeSlice
    ∧ clause <$> typeSlice ≡ₚ clause <$> (first :: rest).
Proof.
  intros [Hf Hrest]%Forall_cons. simpl.
  destruct (grow_invariants rest first Hrest (fresh_well_sized _ Hf)
              (fresh_ordered _ Hf)) as (root & E & Hw & Ho & P).
  exists root, (inorder root). split; [done|].
  split; [by apply ToSlice_inorder|]. split; [by apply ordered_descending|].
  by rewrite P, fresh_inorder.
Qed.

Lemma Split_nonempty (s : string) (sep : ascii) : Split s sep ≠ [].
Proof. induction s; simpl; [done|]. destruct (Ascii.eqb _ _); [done|]. by destruct (Split _ _). Qed.

Lemma ParseAcceptTypes_Ok (accept : string) root :
  ParseAcceptTypes accept = Ok root →
  ∃ first rest,
    header_clauses (Split accept ",") = Ok (first :: rest)
    ∧ root = fold_left grow (first :: rest) None.
Proof.
  unfold ParseAcceptTypes. rewrite ParseAcceptTypes_loop_grow.
  pose proof (Split_nonempty accept ",") as Hne.
  destruct (header_clauses _) as [leaves|] eqn:E; simpl; [|done].
  intros [= <-]. destruct leaves as [|first rest]; [|by eauto].
  destruct (Split accept ","); [done|]. simpl in E.
  destruct (NewAcceptType _); simpl in E; [|done].
  destruct (header_clauses _); simpl in E; done.
Qed.
End TreeFacts.

(** C4, as the code has it: the clauses [ToSlice] yields for a tree grown
    by [Append] are in descending order of priority and are the clauses
    that were appended, each once; this holds for clauses of any
    priorities, and so for the tree [ParseAcceptTypes] builds from a header
    it parses.  Nothing is said on the order of clauses of equal
    priority. *)
Theorem ParseAcceptTypes_descending `{F : Float32} :
  Float32Order →
  (∀ first rest,
      Forall fresh (first :: rest) →
      ∃ root typeSlice,
        fold_left grow (first :: rest) None = Some root
        ∧ ToSlice root = Ok typeSlice
        ∧ descending typeSlice
        ∧ clause <$> typeSlice ≡ₚ clause <$> (first :: rest))
  ∧ (∀ (accept : string) root,
        ParseAcceptTypes accept = Ok root →
        ∃ leaves t typeSlice,
          header_clauses (Split accept ",") = Ok leaves
          ∧ root = Some t
          ∧ ToSlice t = Ok typeSlice
          ∧ descending typeSlice
          ∧ clause <$> typeSlice ≡ₚ clause <$> leaves).
Proof.
  intros order. split; [apply (build_descending order)|].
  intros accept root (first & rest & Hleaves & ->)%ParseAcceptTypes_Ok.
  destruct (build_descending order first rest) as (t & typeSlice & E & ?);
    [by eapply header_clauses_fresh|].
  exists (first :: rest), t, typeSlice. by rewrite E.
Qed.

(** ** [GetCodecForResponding] *)

Section Responding.
Context {V O : Type} `{F : Float32} {G : Unicode} (JSONP : string).
Implicit Types (s : @WebCodecService V O) (codec : Codec V O).

Lemma callback_codec_elem s (hasCallback : bool) codec :
  callback_codec JSONP s hasCallback = Some codec → codec ∈ codecs s.
Proof.
  unfold callback_codec. destruct hasCallback; [|done].
  by intros [? _]%first_where_elem.
Qed.

Lemma FindCodec_elem (acceptType : AcceptType) (registry : list (Codec V O))
    codec :
  FindCodec acceptType registry = Some codec → codec ∈ registry.
Proof. unfold FindCodec. by intros [? _]%first_where_elem. Qed.

(** The selection of [web_codec_service.go] returns a registered codec on
    every input. *)
Lemma WebCodecService_responding_total s (accept extension : string)
    (hasCallback : bool) :
  codecs s ≠ [] →
  ∃ codec,
    WebCodecService.GetCodecForResponding JSONP s accept extension hasCallback
    = Ok (Some codec, None)
    ∧ codec ∈ codecs s.
Proof.
  intros Hs. unfold WebCodecService.GetCodecForResponding.
  rewrite assertCodecs_nonempty by done. simpl.
  destruct (callback_codec _ _ _) as [c|] eqn:Ecb.
  { exists c. split; [done|]. by eapply callback_codec_elem. }
  destruct (first_where _ _) as [c|] eqn:E.
  { exists c. split; [done|]. by apply first_where_elem in E as [? _]. }
  destruct (first_codec_nonempty s Hs) as (c & -> & Hc).
  exists c. split; [done|]. by eapply list_elem_of_lookup_2.
Qed.

Context (order : Float32Order).

(** What [GetCodecForResponding] of [part_000] does once the header is
    parsed and no JSONP codec is taken for the callback. *)
Lemma AcceptTree_responding_parsed s (accept extension : string)
    (hasCallback : bool) root :
  codecs s ≠ [] →
  callback_codec JSONP s hasCallback = None →
  ParseAcceptTypes accept = Ok root →
  ∃ t,
    root = Some t
    ∧ GetCodecForResponding JSONP s accept extension hasCallback
      = match first_some (λ acceptType, FindCodec acceptType (codecs s))
                         (inorder t) with
        | Some codec => Ok (Some codec, None)
        | None =>
            match first_where (extension_test extension hasCallback)
                              (codecs s) with
            | Some codec => Ok (Some codec, None)
            | None => codec ← first_codec s; Ok (Some codec, None)
            end
        end.
Proof.
  intros Hs Hcb Hparse. unfold GetCodecForResponding.
  rewrite assertCodecs_nonempty by done. simpl. rewrite Hcb, Hparse. simpl.
  apply ParseAcceptTypes_Ok in Hparse as (first & rest & Hleaves & ->).
  apply header_clauses_fresh in Hleaves.
  apply Forall_cons in Hleaves as [Hf Hrest].
  destruct (grow_invariants order rest first Hrest (fresh_well_sized _ Hf)
              (fresh_ordered _ Hf)) as (t & E & Hw & _).
  exists t.
  change (fold_left grow (first :: rest) None)
    with (fold_left grow rest (Some first)).
  rewrite E. split; [done|].
  by rewrite (ToSlice_inorder t Hw).
Qed.

(** The selection of [part_000] returns a registered codec whenever the
    header is parsed. *)
Lemma AcceptTree_responding_total_parsed s (accept extension : string)
    (hasCallback : bool) :
  codecs s ≠ [] →
  returns (ParseAcceptTypes accept) →
  ∃ codec,
    GetCodecForResponding JSONP s accept extension hasCallback
    = Ok (Some codec, None)
    ∧ codec ∈ codecs s.
Proof.
  intros Hs [root Hparse].
  destruct (callback_codec JSONP s hasCallback) as [c|] eqn:Ecb.
  { exists c. split; [|by eapply callback_codec_elem].
    unfold GetCodecForResponding.
    rewrite assertCodecs_nonempty by done. simpl. by rewrite Ecb. }
  destruct (AcceptTree_responding_parsed s accept extension hasCallback root)
    as (t & _ & ->); [done..|].
  destruct (first_some _ _) as [c|] eqn:Eacc.
  { exists c. split; [done|].
    apply first_some_elem in Eacc as (a & _ & Ha). by eapply FindCodec_elem. }
  destruct (first_where _ _) as [c|] eqn:E.
  { exists c. split; [done|]. by apply first_where_elem in E as [? _]. }
  destruct (first_codec_nonempty s Hs) as (c & -> & Hc).
  exists c. split; [done|]. by eapply list_elem_of_lookup_2.
Qed.

(** In [part_000] a clause that finds a codec decides the selection
    whatever the extension is; only when no clause finds one is the
    extension looked at. *)
Lemma AcceptTree_accept_before_extension s (accept : string) t :
  codecs s ≠ [] →
  ParseAcceptTypes accept = Ok (Some t) →
  (∀ codec,
      first_some (λ acceptType, FindCodec acceptType (codecs s)) (inorder t)
      = Some codec →
      ∀ extension : string,
        GetCodecForResponding JSONP s accept extension false
        = Ok (Some codec, None))
  ∧ (first_some (λ acceptType, FindCodec acceptType (codecs s)) (inorder t)
     = None →
     ∀ (extension : string) codec,
       first_where (extension_test extension false) (codecs s) = Some codec →
       GetCodecForResponding JSONP s accept extension false
       = Ok (Some codec, None)).
Proof.
  intros Hs Hparse. split.
  - intros codec Hacc extension.
    destruct (AcceptTree_responding_parsed s accept extension false _ Hs
                eq_refl Hparse) as (t' & [= <-] & ->).
    by rewrite Hacc.
  - intros Hacc extension codec Hext.
    destruct (AcceptTree_responding_parsed s accept extension false _ Hs
                eq_refl Hparse) as (t' & [= <-] & ->).
    by rewrite Hacc, Hext.
Qed.

End Responding.

(** ** The code at work in the sample world *)

Import Sample.

Lemma thousandths_order : @Float32Order thousandths.
Proof.
  constructor; unfold f32_ge; simpl; intros.
  - apply Z.eqb_refl.
  - by rewrite Z.eqb_sym.
  - by rewrite Z.gtb_ltb.
  - rewrite Z.eqb_eq, Z.gtb_ltb, !Z.ltb_lt. lia.
  - rewrite !orb_true_iff, !Z.eqb_eq, !Z.gtb_ltb, !Z.ltb_lt in *. lia.
Qed.

(** What [priority_of] would read from a map that had been allocated. *)
Example priority_of_allocated_map :
  Clause.priority_of (Some (<["q" := "0.9"]> ∅)) = 900
  ∧ Clause.priority_of (Some (<["q" := "high"]> ∅)) = 1000
  ∧ Clause.priority_of (Some (<["level" := "1"]> ∅)) = 1000.
Proof. by vm_compute. Qed.

(** The category is cut off in front of the last slash, which stays. *)
Example NewAcceptType_subtype :
  clause <$> NewAcceptType "application/json" = Ok (["/json"], None, 1000)
  ∧ clause <$> NewAcceptType "application/vnd.api+json"
    = Ok (["/vnd.api"; "json"], None, 1000).
Proof. by vm_compute. Qed.

(** C1: [GetCodecForResponding] of [part_000] panics on the empty Accept
    header, whatever the registry holds: the clause has no slash and
    [NewAcceptType] slices its type from index -1. *)
Theorem AcceptTree_responding_empty_accept_panics {V O : Type} `{F : Float32}
    {G : Unicode} (JSONP : string) (codec : Codec V O) (others : list (Codec V O))
    (extension : string) :
  GetCodecForResponding JSONP {| codecs := codec :: others |} "" extension false
  = Panic "slice bounds out of range".
Proof. reflexivity. Qed.

(** C2: on the header of the claim and the registry with the XML codec
    before the JSON codec, [GetCodecForResponding] of
    [web_codec_service.go] returns the XML codec, and that of [part_000]
    panics on the first q parameter. *)
Theorem responding_ignores_q {G : Unicode} :
  WebCodecService.GetCodecForResponding ContentTypeJSONP (service [xml; json])
    "application/xml;q=0.5, application/json;q=0.9" "" false
  = Ok (Some xml, None)
  ∧ GetCodecForResponding ContentTypeJSONP (service [xml; json])
      "application/xml;q=0.5, application/json;q=0.9" "" false
    = Panic "assignment to entry in nil map".
Proof. split; by vm_compute. Qed.

(** C3: with the JSON codec registered before the XML codec, the Accept
    header [application/xml] and the extension [json], both revisions
    return the JSON codec, found by its extension, although the header
    names the content type of the XML codec. *)
Theorem responding_extension_beats_accept {G : Unicode} :
  WebCodecService.GetCodecForResponding ContentTypeJSONP (service [json; xml])
    "application/xml" "json" false
  = Ok (Some json, None)
  ∧ GetCodecForResponding ContentTypeJSONP (service [json; xml])
      "application/xml" "json" false
    = Ok (Some json, None)
  ∧ ContentType xml = "application/xml"
  ∧ ContentType json ≠ ContentType xml.
Proof. repeat split; by vm_compute. Qed.

(** The example of the specification for the extension: both revisions
    return the XML codec. *)
Example responding_extension_fallback {G : Unicode} :
  WebCodecService.GetCodecForResponding ContentTypeJSONP (service [json; xml])
    "text/unrecognized" "xml" false
  = Ok (Some xml, None)
  ∧ GetCodecForResponding ContentTypeJSONP (service [json; xml])
      "text/unrecognized" "xml" false
    = Ok (Some xml, None).
Proof. split; by vm_compute. Qed.

(** The callback example of the specification: the JSONP codec is returned
    whatever the Accept header says, in both revisions. *)
Example responding_callback_override {G : Unicode} :
  WebCodecService.GetCodecForResponding ContentTypeJSONP (service [xml; jsonp])
    "application/xml" "" true
  = Ok (Some jsonp, None)
  ∧ GetCodecForResponding ContentTypeJSONP (service [xml; jsonp])
      "application/xml" "" true
    = Ok (Some jsonp, None).
Proof. split; by vm_compute. Qed.

(** An object with the [Facade] capability is marshalled through its public
    data. *)
Example MarshalWithCodec_facade :
  MarshalWithCodec (service [json]) json public tt
  = Ok (Marshal json (Some tt) tt,
        [call_PublicData public tt; call_Marshal json (Some tt) tt]).
Proof. reflexivity. Qed.

(** C4, as stated, fails: the two clauses of the header [a/x,a/y] have the
    same priority and come out of the tree in the opposite order. *)
Lemma ParseAcceptTypes_header_order_lost :
  ¬ (∀ (accept : string) leaves t typeSlice,
        header_clauses (Split accept ",") = Ok leaves →
        ParseAcceptTypes accept = Ok (Some t) →
        ToSlice t = Ok typeSlice →
        descending typeSlice
        ∧ clause <$> typeSlice = spec_preference_order (clause <$> leaves)).
Proof.
  intros H.
  edestruct (H "a/x,a/y") as [_ E]; [reflexivity..|].
  vm_compute in E. discriminate E.
Qed.

(** C5: [NewAcceptType] panics on a clause without a slash, on a parameter
    segment without an equals sign, and on any parameter segment at all,
    in both revisions. *)
Theorem NewAcceptType_panics `{F : Float32} :
  (NewAcceptType "json" = Panic "slice bounds out of range"
   ∧ NewAcceptType "text/html;level" = Panic "index out of range"
   ∧ NewAcceptType "text/html;level=1" = Panic "assignment to entry in nil map")
  ∧ (WebCodecService.NewAcceptType "json" = Panic "slice bounds out of range"
     ∧ WebCodecService.NewAcceptType "text/html;level" = Panic "index out of range"
     ∧ WebCodecService.NewAcceptType "text/html;level=1"
       = Panic "assignment to entry in nil map").
Proof. repeat split; reflexivity. Qed.

(** C6: on a clause with a q parameter, well formed or not, and on a clause
    with another parameter, [NewAcceptType] panics before the priority is
    looked at, in both revisions. *)
Theorem NewAcceptType_q_panics `{F : Float32} :
  (NewAcceptType "application/json;q=0.9" = Panic "assignment to entry in nil map"
   ∧ NewAcceptType "application/json;q=high" = Panic "assignment to entry in nil map"
   ∧ NewAcceptType "text/html;level=1" = Panic "assignment to entry in nil map")
  ∧ (WebCodecService.NewAcceptType "application/json;q=0.9"
     = Panic "assignment to entry in nil map"
     ∧ WebCodecService.NewAcceptType "application/json;q=high"
       = Panic "assignment to entry in nil map"
     ∧ WebCodecService.NewAcceptType "text/html;level=1"
       = Panic "assignment to entry in nil map").
Proof. repeat split; reflexivity. Qed.

(** The header-order example of the default priority: the two unweighted
    clauses of [a/x,a/y] are tied and [ToSlice] yields the later one
    first. *)
Example ToSlice_ties :
  ∃ t typeSlice,
    ParseAcceptTypes "a/x,a/y" = Ok (Some t)
    ∧ ToSlice t = Ok typeSlice
    ∧ clause <$> typeSlice = [(["/y"], None, 1000); (["/x"], None, 1000)].
Proof. do 2 eexists. split; [reflexivity|]. split; reflexivity. Qed.

(** The examples of the specification for [GetCodec], a content type in
    capitals, and a codec without a content type in front of the JSON
    codec. *)
Example GetCodec_examples {G : Unicode} :
  GetCodec ContentTypeJSON (service [xml; json]) "" = Ok (Some json, None)
  ∧ GetCodec ContentTypeJSON (service [xml; json])
      "application/json; charset=utf-8"
    = Ok (Some json, None)
  ∧ GetCodec ContentTypeJSON (service [xml; json])
      "Application/JSON; Charset=UTF-8"
    = Ok (Some json, None)
  ∧ GetCodec ContentTypeJSON (service [xml; json]) "text/unknown"
    = Ok (None,
          Some (errors_New ("Content type " +:+ String dquote "text/unknown"
                            +:+ String dquote " is not supported.")))
  ∧ GetCodec ContentTypeJSON (service [untyped; json]) ""
    = Ok (Some untyped, None).
Proof. repeat split; by vm_compute. Qed.

(** A content type outside ASCII.  What [GetCodec] returns rests on what
    [unicode.ToLower] does with the capital I with a dot, which it lowers
    to [i]: the JSON codec is found.  The second part runs the code with
    an implementation that does so. *)
Example GetCodec_capital_I_dot :
  (∀ G : Unicode,
      Map_ToLower ("appl" +:+ Cases.capital_I_dot "cation/json")
      = "application/json" →
      GetCodec ContentTypeJSON (service [xml; json])
        ("appl" +:+ Cases.capital_I_dot "cation/json")
      = Ok (Some json, None))
  ∧ @GetCodec unit unit Cases.dotted ContentTypeJSON (service [xml; json])
      ("appl" +:+ Cases.capital_I_dot "cation/json")
    = Ok (Some json, None).
Proof.
  split; [|by vm_compute].
  intros G E. unfold GetCodec, GetCodec_test, ToLower.
  change (ascii_text ("appl" +:+ Cases.capital_I_dot "cation/json"))
    with false.
  cbv iota. rewrite E. by vm_compute.
Qed.

(** The same for the answer: with the XML codec registered behind the JSON
    codec, the header that spells [application/xml] with that letter gets
    the XML codec from [web_codec_service.go]. *)
Example responding_capital_I_dot :
  (∀ G : Unicode,
      Map_ToLower ("appl" +:+ Cases.capital_I_dot "cation/xml")
      = "application/xml" →
      WebCodecService.GetCodecForResponding ContentTypeJSONP
        (service [json; xml]) ("appl" +:+ Cases.capital_I_dot "cation/xml")
        "" false
      = Ok (Some xml, None))
  ∧ @WebCodecService.GetCodecForResponding unit unit Cases.dotted
      ContentTypeJSONP (service [json; xml])
      ("appl" +:+ Cases.capital_I_dot "cation/xml") "" false
    = Ok (Some xml, None).
Proof.
  split; [|by vm_compute].
  intros G E.
  unfold WebCodecService.GetCodecForResponding,
    WebCodecService.responding_test, ToLower.
  change (ascii_text ("appl" +:+ Cases.capital_I_dot "cation/xml"))
    with false.
  cbv iota. rewrite E. by vm_compute.
Qed.

(** ** The theorems at concrete inputs *)

Section AtInputs.
Local Existing Instance plain.

(** C8, as stated, fails: a codec registered without a content type in
    front of the JSON codec is returned for the empty content type (see
    [GetCodec_examples]). *)
Lemma GetCodec_empty_not_json :
  ¬ (∀ s : @WebCodecService unit unit,
        codecs s ≠ [] →
        (∃ codec, codec ∈ codecs s ∧ ContentType codec = ContentTypeJSON) →
        ∃ codec,
          GetCodec ContentTypeJSON s "" = Ok (Some codec, None)
          ∧ ContentType codec = ContentTypeJSON).
Proof.
  intros H.
  destruct (H (service [untyped; json])) as (c & E & Hc).
  - done.
  - exists json. split; [|done]. apply elem_of_cons. right. by left.
  - vm_compute in E. injection E as <-. discriminate Hc.
Qed.

Lemma ParseAcceptTypes_descending_witness :
  @Float32Order thousandths
  ∧ ∃ root typeSlice,
      fold_left grow [leaf "a" 500; leaf "b" 900; leaf "c" 500; leaf "d" 1000]
                None = Some root
      ∧ ToSlice root = Ok typeSlice
      ∧ descending typeSlice
      ∧ clause <$> typeSlice
        ≡ₚ clause <$> [leaf "a" 500; leaf "b" 900; leaf "c" 500; leaf "d" 1000].
Proof.
  split; [exact thousandths_order|].
  apply (proj1 (ParseAcceptTypes_descending thousandths_order)).
  repeat constructor.
Defined.

Lemma GetCodec_first_substring_match_witness :
  (codecs (service [xml; json]) ≠ []
   ∧ "Application/JSON; charset=utf-8" ≠ "")
  ∧ (ascii_text "Application/JSON; charset=utf-8" = true
     ∧ Forall (λ c, ascii_text (ContentType c) = true)
              (codecs (service [xml; json])))
  ∧ first_such (λ c, occurs_in (ContentType c) "Application/JSON; charset=utf-8")
               (codecs (service [xml; json])) json
  ∧ GetCodec ContentTypeJSON (service [xml; json])
      "Application/JSON; charset=utf-8"
    = Ok (Some json, None).
Proof.
  assert (Forall (λ c, ascii_text (ContentType c) = true)
                 (codecs (service [xml; json]))) as Hascii
    by (repeat constructor).
  assert (first_such
            (λ c, occurs_in (ContentType c) "Application/JSON; charset=utf-8")
            (codecs (service [xml; json])) json) as Hfirst.
  { exists [xml], []. split; [done|]. split.
    - by exists "", "Application/JSON", "; charset=utf-8".
    - repeat constructor.
      intros H%lower_bytes_occurs_in%Contains_occurs. by vm_compute in H. }
  split; [done|]. split; [done|]. split; [done|].
  by apply (proj1 (proj2 (proj2 (proj2
              (GetCodec_first_substring_match ContentTypeJSON
                 (service [xml; json]) "Application/JSON; charset=utf-8"
                 ltac:(done) ltac:(done)))) eq_refl Hascii)).
Defined.

Lemma GetCodec_empty_content_type_witness :
  codecs (service [xml; json]) ≠ []
  ∧ GetCodec ContentTypeJSON (service [xml; json]) "" = Ok (Some json, None).
Proof.
  split; [done|].
  apply (proj2 (GetCodec_empty_content_type ContentTypeJSON
                  (service [xml; json]) ltac:(done)) [xml] json []).
  - reflexivity.
  - reflexivity.
  - repeat constructor; simpl; discriminate.
Defined.

Lemma MarshalWithCodec_public_data_witness :
  codecs (service [json]) ≠ []
  ∧ MarshalWithCodec (service [json]) json bare tt
    = Ok (Marshal json (Some tt) tt,
          [call_PublicData bare tt; call_Marshal json (Some tt) tt])
  ∧ ∃ calls,
      MarshalWithCodec (service [json]) json failing tt
      = Ok ((None, Some (errors_New "no public data")), calls)
      ∧ Forall (λ c, ¬ invokes_Marshal c) calls.
Proof.
  assert (codecs (service [json]) ≠ []) as Hs by done.
  split; [done|]. split.
  - by apply (proj1 (MarshalWithCodec_public_data (service [json]) json bare tt Hs)).
  - by eapply (proj2 (proj2 (MarshalWithCodec_public_data (service [json]) json
                               failing tt Hs))).
Defined.

End AtInputs.

(** * Further properties of the code *)

(** ** The registry and the selection *)

Lemma first_where_app {A} (p : A → bool) (l k : list A) :
  first_where p (l ++ k)
  = match first_where p l with
    | Some x => Some x
    | None => first_where p k
    end.
Proof. induction l as [|x l IH]; simpl; [done|]. by destruct (p x). Qed.

Section RegistryOrder.
Context {V O : Type} {G : Unicode} (JSON JSONP : string).
Implicit Types (s : @WebCodecService V O) (codec new : Codec V O).

Lemma AddCodec_nonempty s new : codecs (AddCodec s new) ≠ [].
Proof. simpl. by destruct (codecs s). Qed.

(** X1: on a non-empty registry, [GetCodecForResponding] of
    [web_codec_service.go] returns a codec and no error on every input; the
    codec is registered, and it is the JSONP codec of a callback request,
    or passes one of the three tests of the loop, or is the first
    registered codec. *)
Theorem WebCodecService_responding_closed s (accept extension : string)
    (hasCallback : bool) :
  codecs s ≠ [] →
  ∃ codec,
    WebCodecService.GetCodecForResponding JSONP s accept extension hasCallback
    = Ok (Some codec, None)
    ∧ codec ∈ codecs s
    ∧ (hasCallback = true ∧ ContentType codec = JSONP
       ∨ WebCodecService.responding_test accept extension hasCallback codec
         = true
       ∨ codecs s !! 0%nat = Some codec).
Proof.
  intros Hs. unfold WebCodecService.GetCodecForResponding.
  rewrite assertCodecs_nonempty by done.
  unfold mbind at 1, result_bind at 1. cbv beta iota.
  destruct (callback_codec JSONP s hasCallback) as [c|] eqn:Ecb.
  { exists c. split; [done|]. unfold callback_codec in Ecb.
    destruct hasCallback; [|done].
    apply first_where_elem in Ecb as [Hin Hc].
    split; [done|]. left. split; [done|]. by apply String.eqb_eq. }
  destruct (first_where _ _) as [c|] eqn:E.
  { exists c. split; [done|]. apply first_where_elem in E as [Hin Hc]. auto. }
  destruct (first_codec_nonempty s Hs) as (c & -> & Hc).
  exists c. split; [done|]. split; [by eapply list_elem_of_lookup_2|auto].
Qed.

(** X3: [AddCodec] gives the new codec the last place for [GetCodec]: a
    content type that had a codec keeps it, and one that had none gets the
    new codec exactly when the new codec passes the test of the loop. *)
Theorem GetCodec_AddCodec s new (contentType : string) :
  (∀ codec,
      GetCodec JSON s contentType = Ok (Some codec, None) →
      GetCodec JSON (AddCodec s new) contentType = Ok (Some codec, None))
  ∧ (∀ e,
        GetCodec JSON s contentType = Ok (None, Some e) →
        GetCodec JSON (AddCodec s new) contentType
        = if GetCodec_test JSON contentType new
          then Ok (Some new, None) else Ok (None, Some e)).
Proof.
  assert (∀ r, GetCodec JSON s contentType = Ok r → codecs s ≠ []) as Hne.
  { intros r. unfold GetCodec, assertCodecs. by destruct (codecs s). }
  split.
  - intros codec E. pose proof (Hne _ E) as Hs.
    rewrite GetCodec_cases in E by done.
    rewrite GetCodec_cases by apply AddCodec_nonempty.
    simpl. rewrite first_where_app.
    destruct (first_where _ (codecs s)); by simplify_eq.
  - intros e E. pose proof (Hne _ E) as Hs.
    rewrite GetCodec_cases in E by done.
    rewrite GetCodec_cases by apply AddCodec_nonempty.
    simpl. rewrite first_where_app.
    destruct (first_where _ (codecs s)); simplify_eq. simpl.
    by destruct (GetCodec_test JSON contentType new).
Qed.

Lemma callback_codec_AddCodec s new (hasCallback : bool) :
  callback_codec JSONP (AddCodec s new) hasCallback
  = match callback_codec JSONP s hasCallback with
    | Some x => Some x
    | None => if hasCallback && String.eqb (ContentType new) JSONP
              then Some new else None
    end.
Proof.
  unfold callback_codec. destruct hasCallback; [|done]. simpl.
  rewrite first_where_app. destruct (first_where _ (codecs s)); [done|].
  simpl. by destruct (String.eqb _ _).
Qed.

Lemma first_codec_AddCodec s new :
  codecs s ≠ [] → first_codec (AddCodec s new) = first_codec s.
Proof. unfold first_codec. simpl. by destruct (codecs s). Qed.

(** X4: for [GetCodecForResponding] of [web_codec_service.go], a codec
    added to a non-empty registry changes nothing when it passes no test
    of the request, nor when a registered codec was taken for the callback
    or, without a callback, passed a test of the loop. *)
Theorem WebCodecService_responding_AddCodec s new (accept extension : string)
    (hasCallback : bool) :
  codecs s ≠ [] →
  (hasCallback && String.eqb (ContentType new) JSONP = false →
   WebCodecService.responding_test accept extension hasCallback new = false →
   WebCodecService.GetCodecForResponding JSONP (AddCodec s new) accept
     extension hasCallback
   = WebCodecService.GetCodecForResponding JSONP s accept extension hasCallback)
  ∧ (∀ codec,
        callback_codec JSONP s hasCallback = Some codec →
        WebCodecService.GetCodecForResponding JSONP (AddCodec s new) accept
          extension hasCallback
        = Ok (Some codec, None))
  ∧ (∀ codec,
        hasCallback = false →
        first_where (WebCodecService.responding_test accept extension false)
                    (codecs s) = Some codec →
        WebCodecService.GetCodecForResponding JSONP (AddCodec s new) accept
          extension hasCallback
        = Ok (Some codec, None)).
Proof.
  intros Hs. unfold WebCodecService.GetCodecForResponding.
  rewrite !assertCodecs_nonempty by (done || apply AddCodec_nonempty).
  simpl mbind. rewrite callback_codec_AddCodec, first_codec_AddCodec by done.
  change (codecs (AddCodec s new)) with (codecs s ++ [new]).
  rewrite first_where_app. split; [|split].
  - intros -> Hnew. destruct (callback_codec JSONP s hasCallback); [done|].
    destruct (first_where _ (codecs s)); [done|]. simpl. by rewrite Hnew.
  - by intros codec ->.
  - intros codec -> E. simpl. by rewrite E.
Qed.

(** X17: in [web_codec_service.go] the order of the registry is the order
    of preference: when no JSONP codec is taken for a callback and a
    registered codec passes a test of the loop, the codec returned is that
    codec or one registered before it, whatever the Accept header prefers. *)
Theorem WebCodecService_registry_order_wins s (accept extension : string)
    (hasCallback : bool) before codec after :
  codecs s = before ++ codec :: after →
  callback_codec JSONP s hasCallback = None →
  WebCodecService.responding_test accept extension hasCallback codec = true →
  ∃ selected,
    WebCodecService.GetCodecForResponding JSONP s accept extension hasCallback
    = Ok (Some selected, None)
    ∧ selected ∈ before ++ [codec]
    ∧ WebCodecService.responding_test accept extension hasCallback selected
      = true.
Proof.
  intros Hs Hcb Hc. unfold WebCodecService.GetCodecForResponding.
  rewrite assertCodecs_nonempty by (rewrite Hs; by destruct before).
  unfold mbind at 1, result_bind at 1. cbv beta iota. rewrite Hcb, Hs.
  replace (before ++ codec :: after) with ((before ++ [codec]) ++ after)
    by (by rewrite <- app_assoc).
  rewrite first_where_app.
  destruct (first_where _ (before ++ [codec])) as [x|] eqn:E.
  - apply first_where_elem in E as [Hin Hx]. by exists x.
  - apply first_where_None in E. rewrite Forall_app in E.
    destruct E as [_ E]. apply Forall_cons in E as [E _]. congruence.
Qed.
End RegistryOrder.

Lemma first_some_None {A B} (f : A → option B) (l : list A) :
  Forall (λ x, f x = None) l → first_some f l = None.
Proof. induction 1 as [|x l Hx _ IH]; simpl; [done|]. by rewrite Hx. Qed.

Section Selection.
Context {V O : Type} `{F : Float32} {G : Unicode} (JSON JSONP : string).
Implicit Types (s : @WebCodecService V O) (codec : Codec V O).

(** X2: on an empty registry every operation of the service panics with
    the message of [assertCodecs], before it looks at its arguments or
    calls a collaborator. *)
Theorem empty_registry_panics (contentType accept extension : string)
    (hasCallback : bool) codec (obj : object V O) (options : O)
    (data : list Byte.byte) :
  let s : @WebCodecService V O := {| codecs := [] |} in
  ∃ msg,
    assertCodecs s = Panic msg
    ∧ GetCodec JSON s contentType = Panic msg
    ∧ WebCodecService.GetCodecForResponding JSONP s accept extension hasCallback
      = Panic msg
    ∧ AcceptTree.GetCodecForResponding JSONP s accept extension hasCallback
      = Panic msg
    ∧ MarshalWithCodec s codec obj options = Panic msg
    ∧ UnmarshalWithCodec s codec data obj = Panic msg.
Proof. eexists. repeat split; reflexivity. Qed.

(** X5: a callback request on a registry with a codec whose content type
    is exactly the JSONP content type returns the first such codec in both
    revisions, whatever the Accept header and the extension are; [part_000]
    does not parse the header then. *)
Theorem callback_overrides_header s codec :
  first_such (λ c, ContentType c = JSONP) (codecs s) codec →
  ∀ accept extension : string,
    WebCodecService.GetCodecForResponding JSONP s accept extension true
    = Ok (Some codec, None)
    ∧ AcceptTree.GetCodecForResponding JSONP s accept extension true
      = Ok (Some codec, None).
Proof.
  intros Hfirst accept extension.
  assert (codecs s ≠ []) as Hs.
  { destruct Hfirst as (b & a & -> & _). by destruct b. }
  assert (callback_codec JSONP s true = Some codec) as Hcb.
  { unfold callback_codec. apply first_where_Some.
    eapply first_such_iff; [|done]. intros c. simpl. apply String.eqb_eq. }
  unfold WebCodecService.GetCodecForResponding, AcceptTree.GetCodecForResponding.
  rewrite assertCodecs_nonempty by done.
  unfold mbind, result_bind. cbv beta iota. by rewrite Hcb.
Qed.

(** X6: when no JSONP codec is taken for a callback and no test finds a
    codec, both revisions return the first registered codec. *)
Theorem responding_falls_back_to_first s (accept extension : string)
    (hasCallback : bool) first rest :
  codecs s = first :: rest →
  callback_codec JSONP s hasCallback = None →
  (Forall (λ c, WebCodecService.responding_test accept extension hasCallback c
                = false) (codecs s) →
   WebCodecService.GetCodecForResponding JSONP s accept extension hasCallback
   = Ok (Some first, None))
  ∧ (∀ t typeSlice,
        AcceptTree.ParseAcceptTypes accept = Ok (Some t) →
        AcceptTree.ToSlice t = Ok typeSlice →
        Forall (λ a, AcceptTree.FindCodec a (codecs s) = None) typeSlice →
        Forall (λ c, AcceptTree.extension_test extension hasCallback c = false)
               (codecs s) →
        AcceptTree.GetCodecForResponding JSONP s accept extension hasCallback
        = Ok (Some first, None)).
Proof.
  intros Hs Hcb.
  assert (codecs s ≠ []) as Hne by by rewrite Hs.
  assert (first_codec s = Ok first) as Hfirst.
  { unfold first_codec. by rewrite Hs. }
  unfold WebCodecService.GetCodecForResponding, AcceptTree.GetCodecForResponding.
  rewrite assertCodecs_nonempty by done.
  unfold mbind, result_bind. cbv beta iota. rewrite Hcb. split.
  - intros Hall%first_where_None. by rewrite Hall, Hfirst.
  - intros t typeSlice -> Hsl Hacc%first_some_None Hext%first_where_None.
    by rewrite Hsl, Hacc, Hext, Hfirst.
Qed.

(** X7: on a non-empty registry [GetCodec] returns either a registered
    codec without an error or, without a codec, the error whose message
    quotes the content type; it returns the error exactly when no
    registered codec has its lowered content type in the lowered given
    one, nor is the JSON codec of an empty content type.  For content
    types of ASCII the first condition is that no registered content type
    occurs in the given one, the case of the letters left aside. *)
Theorem GetCodec_result_shape s (contentType : string) :
  codecs s ≠ [] →
  ((∃ codec,
       GetCodec JSON s contentType = Ok (Some codec, None)
       ∧ codec ∈ codecs s)
   ∨ GetCodec JSON s contentType
     = Ok (None,
           Some (errors_New ("Content type " +:+ String dquote contentType
                             +:+ String dquote " is not supported."))))
  ∧ (GetCodec JSON s contentType
     = Ok (None,
           Some (errors_New ("Content type " +:+ String dquote contentType
                             +:+ String dquote " is not supported.")))
     ↔ Forall (λ c, ¬ ci_substring (ContentType c) contentType
                    ∧ ¬ (contentType = "" ∧ ContentType c = JSON))
              (codecs s))
  ∧ (ascii_text contentType = true →
     Forall (λ c, ascii_text (ContentType c) = true) (codecs s) →
     (GetCodec JSON s contentType
      = Ok (None,
            Some (errors_New ("Content type " +:+ String dquote contentType
                              +:+ String dquote " is not supported.")))
      ↔ Forall (λ c, ¬ occurs_in (ContentType c) contentType
                     ∧ ¬ (contentType = "" ∧ ContentType c = JSON))
               (codecs s))).
Proof.
  intros Hs. rewrite GetCodec_cases by done. unfold Sprintf_not_supported.
  assert (∀ c : Codec V O, GetCodec_test JSON contentType c = false
               ↔ ¬ ci_substring (ContentType c) contentType
                 ∧ ¬ (contentType = "" ∧ ContentType c = JSON)) as Htest.
  { intros c. unfold GetCodec_test.
    pose proof (len_zero contentType) as H1.
    pose proof (String.eqb_eq (ContentType c) JSON) as H2.
    pose proof (Contains_ci_substring contentType (ContentType c)) as H3.
    destruct (len contentType =? 0), (String.eqb (ContentType c) JSON),
      (Contains (ToLower contentType) (ToLower (ContentType c)));
      simpl; intuition congruence. }
  assert (match first_where (GetCodec_test JSON contentType) (codecs s) with
          | Some c => Ok (Some c, None)
          | None =>
              Ok (None,
                  Some (errors_New
                          ("Content type " +:+ String dquote contentType
                           +:+ String dquote " is not supported.")))
          end
          = Ok (None,
                Some (errors_New
                        ("Content type " +:+ String dquote contentType
                         +:+ String dquote " is not supported.")))
          ↔ Forall (λ c, ¬ ci_substring (ContentType c) contentType
                         ∧ ¬ (contentType = "" ∧ ContentType c = JSON))
                   (codecs s)) as Hnone.
  { destruct (first_where _ _) as [c|] eqn:E.
    - apply first_where_elem in E as [Hin Hc].
      split; [discriminate|]. intros Hall. rewrite Forall_forall in Hall.
      apply Hall, Htest in Hin. congruence.
    - split; [|done]. intros _.
      apply first_where_None in E. eapply Forall_impl; [done|].
      intros c. apply Htest. }
  split; [|split; [done|]].
  - destruct (first_where _ _) as [c|] eqn:E; [|by right].
    apply first_where_elem in E as [Hin Hc]. left; eauto.
  - intros Hascii Hall. rewrite Hnone. apply Forall_iff_elem.
    eapply Forall_impl; [done|]. intros c Hc.
    by rewrite ci_substring_ascii.
Qed.
End Selection.

(** ** The tree of clauses *)

Section TreeMore.
Context `{F : Float32}.
Implicit Types (a next : AcceptType).

Lemma store_length {A} (l l' : list A) (i : Z) (x : A) :
  store l i x = Ok l' → length l' = length l.
Proof.
  unfold store. destruct (_ || _); [done|]. intros [= <-]. apply length_insert.
Qed.

Lemma store_all_length {A} (xs l l' : list A) (i : Z) :
  store_all l i xs = Ok l' → length l' = length l.
Proof.
  revert l i. induction xs as [|x xs IH]; intros l i; simpl.
  - by intros [= <-].
  - destruct (store l i x) as [l1|] eqn:E; simpl; [|done].
    intros H%IH. rewrite H. by eapply store_length.
Qed.

Lemma store_empty {A} (i : Z) (x : A) : store [] i x = Panic "index out of range".
Proof.
  unfold store, len_slice. simpl length. change (Z.of_nat 0) with 0.
  destruct ((i <? 0) || (0 <=? i)) eqn:E; [done|].
  apply orb_false_iff in E as [E1 E2].
  apply Z.ltb_ge in E1. apply Z.leb_gt in E2. lia.
Qed.

(** X9: on a tree whose [Size] fields count its nodes [ToSlice] returns
    the nodes from left to right, [Size] of them; on a node whose [Size] is
    zero or negative, as the zero value of the struct, it panics. *)
Theorem ToSlice_counts a :
  (well_sized a →
   ToSlice a = Ok (inorder a) ∧ len_slice (inorder a) = Size a)
  ∧ (Size a ≤ 0 → panics (ToSlice a)).
Proof.
  split.
  - intros Hw. split; [by apply ToSlice_inorder|].
    by apply inorder_length_well_sized.
  - destruct a as [cts vars size priority lchild rchild].
    cbn [Size ToSlice]. intros Hsize.
    unfold make. destruct (size <? 0) eqn:E; [by eexists|].
    apply Z.ltb_ge in E. replace size with 0 by lia.
    change (replicate (Z.to_nat 0) zero) with (@nil AcceptType).
    unfold mbind, result_bind. cbv beta iota.
    destruct lchild as [l|].
    + destruct (ToSlice l) as [ls|]; [|by eexists].
      destruct (store_all [] 0 ls) as [ts|] eqn:Es; [|by eexists].
      apply store_all_length in Es. destruct ts; [|done].
      rewrite store_empty. by eexists.
    + rewrite store_empty. by eexists.
Qed.

(** [Append] counts every call and leaves the clause of the root alone. *)
Lemma Append_Size_clause (a next : AcceptType) :
  Size (Append a next) = Size a + 1 ∧ clause (Append a next) = clause a.
Proof.
  destruct a as [c v sz p [l|] [r|]]; cbn [Append];
    repeat (match goal with
            | |- context [if ?b then _ else _] => destruct b
            end); done.
Qed.

(** X10: under the order laws of the numbers, [Append] of a fresh clause
    puts its clause at one place of the left-to-right sequence of the tree
    and leaves the other clauses where they were; the root keeps its
    clause and its [Size] grows by one. *)
Theorem Append_inserts_in_place a next :
  Float32Order → fresh next →
  Size (Append a next) = Size a + 1
  ∧ clause (Append a next) = clause a
  ∧ ∃ before after,
      clause <$> inorder a = before ++ after
      ∧ clause <$> inorder (Append a next) = before ++ clause next :: after.
Proof.
  intros order Hnext. pose proof (fresh_inorder _ Hnext) as Hin.
  destruct (Append_Size_clause a next) as [HS HC].
  split; [done|]. split; [done|]. clear HS HC.
  induction a as [cts vars size priority lchild rchild IHl IHr]
    using AcceptType_ind.
  rewrite inorder_clauses.
  set (this := mkAcceptType cts vars size priority lchild rchild).
  assert (∀ l, lchild = Some l →
            ∃ before after,
              clauses_of lchild ++ (cts, vars, priority) :: clauses_of rchild
              = before ++ after
              ∧ clause <$> inorder (incr_Size (set_Left this (Append l next)))
                = before ++ clause next :: after) as Hleft.
  { intros l ->. destruct IHl as (b & af & E1 & E2).
    exists b, (af ++ (cts, vars, priority) :: clauses_of rchild).
    unfold incr_Size, set_Left. cbn [ContentTypes Variables Size Priority Left Right this].
    rewrite inorder_clauses. cbn [clauses_of]. rewrite E1, E2.
    by rewrite <- !app_assoc. }
  assert (∀ r, rchild = Some r →
            ∃ before after,
              clauses_of lchild ++ (cts, vars, priority) :: clauses_of rchild
              = before ++ after
              ∧ clause <$> inorder (incr_Size (set_Right this (Append r next)))
                = before ++ clause next :: after) as Hright.
  { intros r ->. destruct IHr as (b & af & E1 & E2).
    exists (clauses_of lchild ++ (cts, vars, priority) :: b), af.
    unfold incr_Size, set_Right. cbn [ContentTypes Variables Size Priority Left Right this].
    rewrite inorder_clauses. cbn [clauses_of]. rewrite E1, E2.
    by rewrite <- !app_assoc. }
  assert (lchild = None →
            ∃ before after,
              clauses_of lchild ++ (cts, vars, priority) :: clauses_of rchild
              = before ++ after
              ∧ clause <$> inorder (incr_Size (set_Left this next))
                = before ++ clause next :: after) as Hleft0.
  { intros ->. exists [], ((cts, vars, priority) :: clauses_of rchild).
    unfold incr_Size, set_Left. cbn [ContentTypes Variables Size Priority Left Right this].
    rewrite inorder_clauses. cbn [clauses_of]. by rewrite Hin. }
  assert (rchild = None →
            ∃ before after,
              clauses_of lchild ++ (cts, vars, priority) :: clauses_of rchild
              = before ++ after
              ∧ clause <$> inorder (incr_Size (set_Right this next))
                = before ++ clause next :: after) as Hright0.
  { intros ->. exists (clauses_of lchild ++ [(cts, vars, priority)]), [].
    unfold incr_Size, set_Right. cbn [ContentTypes Variables Size Priority Left Right this].
    rewrite inorder_clauses. cbn [clauses_of]. rewrite Hin.
    by rewrite <- !app_assoc, app_nil_r. }
  subst this. cbn [Append].
  destruct (f32_eq priority (Priority next)) eqn:Eeq.
  { destruct lchild as [l|]; [|by apply Hleft0].
    destruct rchild as [r|]; [|by apply Hright0].
    destruct (Size r <=? Size l); [by apply Hright|by apply Hleft]. }
  destruct (f32_gt (Priority next) priority) eqn:Egt.
  { destruct lchild as [l|]; [by apply Hleft|by apply Hleft0]. }
  destruct (f32_lt (Priority next) priority) eqn:Elt.
  { destruct rchild as [r|]; [by apply Hright|by apply Hright0]. }
  destruct (f32_total order (Priority next) priority) as [E|[E|E]]; [|congruence..].
  apply (f32_eq_sym order) in E. congruence.
Qed.

Lemma ToSlice_spare cts vars size priority lchild rchild (spare : nat) :
  match lchild with Some l => well_sized l | None => True end →
  match rchild with Some r => well_sized r | None => True end →
  size = 1 + Size_of lchild + Size_of rchild + Z.of_nat spare →
  ToSlice (mkAcceptType cts vars size priority lchild rchild)
  = Ok (match lchild with Some l => inorder l | None => [] end
        ++ mkAcceptType cts vars size priority lchild rchild
        :: match rchild with Some r => inorder r | None => [] end
        ++ replicate spare zero).
Proof.
  intros Hl Hr Hsize. cbn [ToSlice].
  set (this := mkAcceptType cts vars size priority lchild rchild).
  set (ls := match lchild with Some l => inorder l | None => [] end).
  set (rs := match rchild with Some r => inorder r | None => [] end).
  assert (Z.of_nat (length ls) = Size_of lchild) as Hls.
  { subst ls. destruct lchild; [by apply inorder_length_well_sized|done]. }
  assert (Z.of_nat (length rs) = Size_of rchild) as Hrs.
  { subst rs. destruct rchild; [by apply inorder_length_well_sized|done]. }
  replace size with (Z.of_nat (length ls + (1 + (length rs + spare)))) by lia.
  rewrite make_replicate, !replicate_add.
  change (replicate 1 zero ++ ?l) with (zero :: l).
  set (tail := replicate (length rs) zero ++ replicate spare zero).
  assert (∀ T (k : Z * list AcceptType → result T),
             (match lchild with
              | Some l =>
                  ToSlice l ≫= λ leftSlice,
                    store_all (replicate (length ls) zero ++ zero :: tail)
                              0 leftSlice
                    ≫= λ typeSlice', Ok (Size l, typeSlice')
              | None => Ok (0, replicate (length ls) zero ++ zero :: tail)
              end ≫= k)
             = k (Z.of_nat (length ls), ls ++ zero :: tail))
    as Hleft.
  { intros T k. subst ls. destruct lchild as [l|]; simpl in *; [|done].
    rewrite (ToSlice_inorder l Hl). simpl.
    pose proof (store_all_middle (inorder l) []
                  (replicate (length (inorder l)) zero)
                  (zero :: tail) 0 eq_refl
                  (length_replicate _ _)) as E.
    simpl in E. rewrite E. simpl. by rewrite Hls. }
  unfold mbind at 1, result_bind at 1. cbv beta iota.
  rewrite Hleft. cbv beta iota. rewrite store_middle.
  unfold mbind at 1, result_bind at 1. cbv beta iota.
  subst rs tail. destruct rchild as [r|]; simpl in *.
  - rewrite (ToSlice_inorder r Hr). simpl.
    assert (ls ++ this :: replicate (length (inorder r)) zero
                 ++ replicate spare zero
            = (ls ++ [this]) ++ replicate (length (inorder r)) zero
                 ++ replicate spare zero) as ->
      by (by rewrite <- app_assoc).
    rewrite (store_all_middle (inorder r) (ls ++ [this])).
    + by rewrite <- app_assoc.
    + rewrite length_app. simpl. lia.
    + by rewrite length_replicate.
  - done.
Qed.

(** X11: a clause whose priority compares false with the root's on [==],
    [>] and [<] (a NaN) is not linked into the tree, yet [Size] is
    incremented: [ToSlice] then yields the nodes of the tree followed by a
    zero value. *)
Theorem Append_drops_incomparable a next :
  f32_eq (Priority a) (Priority next) = false →
  f32_gt (Priority next) (Priority a) = false →
  f32_lt (Priority next) (Priority a) = false →
  Left (Append a next) = Left a
  ∧ Right (Append a next) = Right a
  ∧ Size (Append a next) = Size a + 1
  ∧ (well_sized a →
     ∃ before after,
       inorder a = before ++ a :: after
       ∧ ToSlice (Append a next)
         = Ok (before ++ Append a next :: after ++ [zero])).
Proof.
  destruct a as [cts vars size priority lchild rchild].
  cbn [Priority Append]. intros -> -> ->.
  unfold incr_Size. cbn [ContentTypes Variables Size Priority Left Right].
  split; [done|]. split; [done|]. split; [done|].
  intros (Hsize & Hl & Hr). eexists _, _. split; [reflexivity|].
  apply (ToSlice_spare _ _ _ _ _ _ 1 Hl Hr). lia.
Qed.
End TreeMore.

Section Finding.
Context {V O : Type} `{F : Float32} {G : Unicode}.

Lemma existsb_elem_of {A} (p : A → bool) (l : list A) :
  existsb p l = true ↔ ∃ x, x ∈ l ∧ p x = true.
Proof.
  rewrite existsb_exists. split; intros (x & Hx & Hp); exists x; split;
    try done; by apply list_elem_of_In.
Qed.

(** X8: [FindCodec] returns the first codec of the registry whose lowered
    content type equals one of the clause's lowered content types, so the
    order of the registry decides before the order of the content types;
    it returns nil exactly when no registered codec does.  For content
    types of ASCII, two content types are equal in this way exactly when
    they are the same text with the case of the letters left aside. *)
Theorem FindCodec_first_registered (a : AcceptType)
    (registry : list (Codec V O)) :
  (∀ codec,
      FindCodec a registry = Some codec
      ↔ first_such
          (λ c, ∃ typeString,
                  typeString ∈ ContentTypes a
                  ∧ ToLower typeString = ToLower (ContentType c))
          registry codec)
  ∧ (FindCodec a registry = None
     ↔ Forall (λ c, ∀ typeString,
                      typeString ∈ ContentTypes a →
                      ToLower typeString ≠ ToLower (ContentType c))
              registry)
  ∧ (Forall (λ typeString, ascii_text typeString = true) (ContentTypes a) →
     Forall (λ c, ascii_text (ContentType c) = true) registry →
     (∀ codec,
         FindCodec a registry = Some codec
         ↔ first_such
             (λ c, ∃ typeString,
                     typeString ∈ ContentTypes a
                     ∧ same_text typeString (ContentType c) = true)
             registry codec)
     ∧ (FindCodec a registry = None
        ↔ Forall (λ c, ∀ typeString,
                         typeString ∈ ContentTypes a →
                         same_text typeString (ContentType c) = false)
                 registry)).
Proof.
  unfold FindCodec.
  assert (∀ c : Codec V O,
             existsb (λ typeString,
                        String.eqb (ToLower typeString) (ToLower (ContentType c)))
                     (ContentTypes a) = true
             ↔ ∃ typeString,
                 typeString ∈ ContentTypes a
                 ∧ ToLower typeString = ToLower (ContentType c)) as Htest.
  { intros c. rewrite existsb_elem_of.
    split; intros (t & Ht & E); exists t; (split; [done|]);
      by apply String.eqb_eq. }
  assert (∀ codec,
             first_where
               (λ c, existsb (λ typeString,
                                String.eqb (ToLower typeString)
                                           (ToLower (ContentType c)))
                             (ContentTypes a))
               registry = Some codec
             ↔ first_such
                 (λ c, ∃ typeString,
                         typeString ∈ ContentTypes a
                         ∧ ToLower typeString = ToLower (ContentType c))
                 registry codec) as Hfound.
  { intros codec. rewrite first_where_Some. by apply first_such_iff. }
  assert (first_where
            (λ c, existsb (λ typeString,
                             String.eqb (ToLower typeString)
                                        (ToLower (ContentType c)))
                          (ContentTypes a))
            registry = None
          ↔ Forall (λ c, ∀ typeString,
                           typeString ∈ ContentTypes a →
                           ToLower typeString ≠ ToLower (ContentType c))
                   registry) as Hnone.
  { rewrite first_where_None. apply Forall_proper; [|done].
    intros c. rewrite <- not_true_iff_false, Htest. split.
    + intros Hno t Ht E. apply Hno. eauto.
    + intros Hno (t & Ht & E). by eapply Hno. }
  split; [done|]. split; [done|].
  intros Htypes Hregistry. rewrite Forall_forall in Htypes. split.
  - intros codec. rewrite Hfound. apply first_such_iff_elem.
    eapply Forall_impl; [done|]. intros c Hc.
    split; intros (t & Ht & E); exists t; (split; [done|]);
      by apply (ToLower_same_text t (ContentType c) (Htypes t Ht) Hc).
  - rewrite Hnone. apply Forall_iff_elem.
    eapply Forall_impl; [done|]. intros c Hc.
    split; intros Hno t Ht; specialize (Hno t Ht);
      pose proof (ToLower_same_text t (ContentType c) (Htypes t Ht) Hc) as E.
    + apply not_true_iff_false. by rewrite <- E.
    + apply not_true_iff_false in Hno. by rewrite E.
Qed.
End Finding.

(** ** The parser of clauses *)

Lemma Split_without (s : string) (sep : ascii) :
  occurs sep s = false → Split s sep = [s].
Proof.
  induction s as [|c s IH]; simpl; [done|].
  intros [Hc Hs]%orb_false_iff. rewrite Hc, (IH Hs). done.
Qed.

Lemma Split_with (s : string) (sep : ascii) :
  occurs sep s = true → ∃ p q rest, Split s sep = p :: q :: rest.
Proof.
  induction s as [|c s IH]; simpl; [done|].
  destruct (Ascii.eqb c sep) eqn:Hc; simpl.
  - intros _. pose proof (Split_nonempty s sep).
    destruct (Split s sep) as [|q rest]; [done|]. eauto.
  - intros (p & q & rest & ->)%IH. eauto.
Qed.

Lemma LastIndex_from_without (s : string) (sep : ascii) (i found : Z) :
  occurs sep s = false → LastIndex_from i s sep found = found.
Proof.
  revert i found. induction s as [|c s IH]; intros i found; simpl; [done|].
  intros [Hc Hs]%orb_false_iff. rewrite Hc. by apply IH.
Qed.

Lemma LastIndex_from_with (s : string) (sep : ascii) (i found : Z) :
  occurs sep s = true →
  ∃ before after,
    s = before +:+ String sep after
    ∧ occurs sep after = false
    ∧ LastIndex_from i s sep found = i + len before.
Proof.
  revert i found. induction s as [|c s IH]; intros i found; simpl; [done|].
  destruct (occurs sep s) eqn:Hs.
  - intros _. destruct (IH (i + 1) (if Ascii.eqb c sep then i else found) eq_refl)
      as (b & a & -> & Ha & E).
    exists (String c b), a. rewrite append_String. split; [done|].
    split; [done|]. rewrite E. unfold len. simpl. lia.
  - rewrite orb_false_r. intros Hc. rewrite Hc.
    apply Ascii.eqb_eq in Hc as ->.
    exists "", s. rewrite append_empty. split; [done|]. split; [done|].
    rewrite LastIndex_from_without by done. unfold len. simpl. lia.
Qed.

Lemma string_drop_append (before after : string) :
  string_drop (String.length before) (before +:+ after) = after.
Proof.
  induction before as [|c b IH]; [by destruct after|].
  rewrite append_String. simpl. apply IH.
Qed.

Lemma length_append (s t : string) :
  String.length (s +:+ t) = (String.length s + String.length t)%nat.
Proof.
  induction s as [|c s IH]; [done|]. rewrite append_String. simpl. by rewrite IH.
Qed.

Lemma slice_from_LastIndex (s : string) (sep : ascii) :
  (occurs sep s = false
   ∧ slice_from s (LastIndex s sep) = Panic "slice bounds out of range")
  ∨ (∃ before after,
        s = before +:+ String sep after
        ∧ occurs sep after = false
        ∧ slice_from s (LastIndex s sep) = Ok (String sep after)).
Proof.
  unfold LastIndex. destruct (occurs sep s) eqn:Hs.
  - right. destruct (LastIndex_from_with s sep 0 (-1) Hs) as (b & a & -> & Ha & E).
    exists b, a. split; [done|]. split; [done|]. rewrite E.
    unfold slice_from, len. rewrite length_append. simpl String.length.
    destruct (_ || _) eqn:Hb.
    + apply orb_true_iff in Hb as [Hb|Hb];
        [apply Z.ltb_lt in Hb|apply Z.ltb_lt in Hb]; lia.
    + replace (0 + Z.of_nat (String.length b)) with (Z.of_nat (String.length b))
        by lia.
      by rewrite Nat2Z.id, string_drop_append.
  - left. split; [done|]. by rewrite LastIndex_from_without.
Qed.

Lemma occurs_append (sep : ascii) (s t : string) :
  occurs sep (s +:+ t) = occurs sep s || occurs sep t.
Proof.
  induction s as [|c s IH]; [done|]. rewrite append_String. simpl.
  by rewrite IH, orb_assoc.
Qed.

Lemma occurs_at (sep : ascii) (s t : string) :
  occurs sep (s +:+ String sep t) = true.
Proof.
  rewrite occurs_append. simpl. rewrite Ascii.eqb_refl. apply orb_true_r.
Qed.

Lemma last_sep_unique (sep : ascii) (b a c sub : string) :
  b +:+ String sep a = c +:+ String sep sub →
  occurs sep a = false → occurs sep sub = false →
  b = c ∧ a = sub.
Proof.
  revert c. induction b as [|x b IH]; intros [|y c];
    rewrite ?append_empty, ?append_String; intros E Ha Hsub.
  - by simplify_eq.
  - simplify_eq. by rewrite occurs_at in Ha.
  - simplify_eq. by rewrite occurs_at in Hsub.
  - injection E as -> E. destruct (IH c E Ha Hsub) as [-> ->]. done.
Qed.

Section ParserShape.
Context `{F : Float32}.

Lemma Clause_parse_iff (accept : string) types vars priority :
  Clause.parse accept = Ok (types, vars, priority)
  ↔ occurs ";" accept = false
    ∧ ∃ category subtype others,
        Split accept "+" = (category +:+ String "/" subtype) :: others
        ∧ occurs "/" subtype = false
        ∧ types = String "/" subtype :: others
        ∧ vars = None
        ∧ priority = f32_one.
Proof.
  unfold Clause.parse. destruct (occurs ";" accept) eqn:Hsemi.
  - split; [|by intros [? _]].
    destruct (Split_with _ _ Hsemi) as (p & q & rest & ->). simpl.
    unfold Clause.parse_variable.
    destruct (index (Split q "=") 0); simpl; [|done].
    destruct (index (Split q "=") 1); simpl; done.
  - rewrite (Split_without _ _ Hsemi). simpl.
    change (index [accept] 0) with (Ok accept). simpl.
    pose proof (Split_nonempty accept "+") as Hne.
    destruct (Split accept "+") as [|t0 others] eqn:Hplus; [done|].
    change (index (t0 :: others) 0) with (Ok t0). simpl.
    destruct (slice_from_LastIndex t0 "/") as [[Hno E]|(b & a & -> & Ha & E)];
      rewrite E; simpl.
    + split; [done|]. intros (_ & c & sub & o & [= -> ->] & _).
      by rewrite occurs_at in Hno.
    + change (store (?x :: others) 0 ?y) with (Ok (y :: others)). simpl.
      unfold Clause.priority_of. simpl. split.
      * intros [= <- <- <-]. split; [done|]. exists b, a, others. done.
      * intros (_ & c & sub & o & [= Hc ->] & Hsub & -> & -> & ->).
        by destruct (last_sep_unique _ _ _ _ _ Hc Ha Hsub) as [_ ->].
Qed.
End ParserShape.

Section ParserUse.
Context {V O : Type} `{F : Float32} {G : Unicode} (JSONP : string).
Implicit Types (s : @WebCodecService V O).

(** X12: [NewAcceptType] returns exactly on the clauses without a
    semicolon whose part before the first plus sign has a slash; the
    clause returned has no parameters, priority 1.0 and, as content types,
    the text from the last slash of that part on, slash included, followed
    by the parts behind the plus signs.  Both revisions. *)
Theorem NewAcceptType_shape (accept : string) :
  (∀ next,
      NewAcceptType accept = Ok next
      ↔ occurs ";" accept = false
        ∧ ∃ category subtype others,
            Split accept "+" = (category +:+ String "/" subtype) :: others
            ∧ occurs "/" subtype = false
            ∧ next = mkAcceptType (String "/" subtype :: others) None 1
                                  f32_one None None)
  ∧ (∀ acceptType,
        WebCodecService.NewAcceptType accept = Ok acceptType
        ↔ occurs ";" accept = false
          ∧ ∃ category subtype others,
              Split accept "+" = (category +:+ String "/" subtype) :: others
              ∧ occurs "/" subtype = false
              ∧ acceptType
                = {| WebCodecService.ContentTypes := String "/" subtype :: others;
                     WebCodecService.Variables := None;
                     WebCodecService.Priority := f32_one |}).
Proof.
  split.
  - intros next. unfold NewAcceptType.
    destruct (Clause.parse accept) as [[[types vars] priority]|] eqn:E; simpl.
    + apply Clause_parse_iff in E as (Hsemi & c & sub & o & Hs & Hsub & -> & -> & ->).
      split.
      * intros [= <-]. split; [done|]. by exists c, sub, o.
      * intros (_ & c' & sub' & o' & Hs' & Hsub' & ->).
        rewrite Hs in Hs'. injection Hs' as Hc <-.
        by destruct (last_sep_unique _ _ _ _ _ Hc Hsub Hsub') as [_ ->].
    + split; [done|]. intros (Hsemi & c & sub & o & Hs & Hsub & _).
      assert (Clause.parse accept = Ok (String "/" sub :: o, None, f32_one))
        as E'; [|congruence].
      apply Clause_parse_iff. split; [done|]. by exists c, sub, o.
  - intros acceptType. unfold WebCodecService.NewAcceptType.
    destruct (Clause.parse accept) as [[[types vars] priority]|] eqn:E; simpl.
    + apply Clause_parse_iff in E as (Hsemi & c & sub & o & Hs & Hsub & -> & -> & ->).
      split.
      * intros [= <-]. split; [done|]. by exists c, sub, o.
      * intros (_ & c' & sub' & o' & Hs' & Hsub' & ->).
        rewrite Hs in Hs'. injection Hs' as Hc <-.
        by destruct (last_sep_unique _ _ _ _ _ Hc Hsub Hsub') as [_ ->].
    + split; [done|]. intros (Hsemi & c & sub & o & Hs & Hsub & _).
      assert (Clause.parse accept = Ok (String "/" sub :: o, None, f32_one))
        as E'; [|congruence].
      apply Clause_parse_iff. split; [done|]. by exists c, sub, o.
Qed.

(** X13: a clause without a plus sign finds only codecs whose content
    type begins with a slash. *)
Theorem plain_clause_finds_slash_types (accept : string) next
    (registry : list (Codec V O)) codec :
  NewAcceptType accept = Ok next →
  occurs "+" accept = false →
  FindCodec next registry = Some codec →
  ∃ rest, ContentType codec = String "/" rest.
Proof.
  unfold NewAcceptType.
  destruct (Clause.parse accept) as [[[types vars] priority]|] eqn:E; simpl; [|done].
  apply Clause_parse_iff in E as (_ & c & sub & o & Hs & _ & -> & -> & ->).
  intros [= <-] Hplus. rewrite (Split_without _ _ Hplus) in Hs.
  injection Hs as _ <-. unfold FindCodec.
  intros [_ Hc]%first_where_elem. cbn [ContentTypes existsb] in Hc.
  rewrite orb_false_r in Hc. apply String.eqb_eq in Hc.
  destruct (ToLower_head "/" sub) as (d & t & E & [->|[Hd _]]); [|done].
  rewrite E in Hc. symmetry in Hc. by apply ToLower_slash in Hc.
Qed.

Lemma grow_Size_clause (leaves : list AcceptType) (a : AcceptType) :
  ∃ t, fold_left grow leaves (Some a) = Some t
       ∧ Size t = Size a + len_slice leaves
       ∧ clause t = clause a.
Proof.
  revert a. induction leaves as [|n leaves IH]; intros a; simpl.
  - exists a. unfold len_slice. simpl. split; [done|]. split; [lia|done].
  - destruct (IH (Append a n)) as (t & E & HS & HC). exists t.
    destruct (Append_Size_clause a n) as [HS' HC'].
    split; [done|]. split; [|congruence].
    rewrite HS, HS'. unfold len_slice. simpl length. lia.
Qed.

Lemma header_clauses_returns (acceptPieces : list string) :
  returns (header_clauses acceptPieces)
  ↔ Forall (λ p, returns (NewAcceptType p)) acceptPieces.
Proof.
  induction acceptPieces as [|p ps IH]; simpl.
  - split; [constructor|]. by eexists.
  - rewrite Forall_cons, <- IH. destruct (NewAcceptType p) as [n|]; simpl.
    + destruct (header_clauses ps) as [ns|]; simpl.
      * split; [intros _; split; by eexists|by eexists].
      * split; [by intros [? ?]|]. by intros [_ [? ?]].
    + split; [by intros [? ?]|]. by intros [[? ?] _].
Qed.

Lemma header_clauses_length (acceptPieces : list string) leaves :
  header_clauses acceptPieces = Ok leaves → length leaves = length acceptPieces.
Proof.
  revert leaves. induction acceptPieces as [|p ps IH]; intros leaves; simpl.
  - by intros [= <-].
  - destruct (NewAcceptType p); simpl; [|done].
    destruct (header_clauses ps) as [ns|]; simpl; [|done].
    intros [= <-]. simpl. f_equal. by apply IH.
Qed.

(** X14: [ParseAcceptTypes] of [part_000] returns exactly when
    [NewAcceptType] returns on every clause of the header; the tree it
    returns is not nil, has the first clause of the header at its root and
    has as [Size] the number of clauses. *)
Theorem ParseAcceptTypes_returns_iff (accept : string) :
  (returns (ParseAcceptTypes accept)
   ↔ Forall (λ p, returns (NewAcceptType p)) (Split accept ","))
  ∧ (∀ root,
        ParseAcceptTypes accept = Ok root →
        ∃ t first pieces,
          root = Some t
          ∧ Split accept "," = first :: pieces
          ∧ clause <$> NewAcceptType first = Ok (clause t)
          ∧ Size t = len_slice (Split accept ",")).
Proof.
  split.
  - rewrite <- header_clauses_returns. unfold ParseAcceptTypes.
    rewrite ParseAcceptTypes_loop_grow.
    destruct (header_clauses _) as [leaves|]; simpl.
    + split; intros _; eexists; reflexivity.
    + split; intros [? ?]; discriminate.
  - intros root (n & leaves & Hh & ->)%ParseAcceptTypes_Ok.
    destruct (grow_Size_clause leaves n) as (t & E & HS & HC).
    pose proof (header_clauses_length _ _ Hh) as Hlen.
    destruct (Split accept ",") as [|first pieces] eqn:Hsplit; [done|].
    exists t, first, pieces. split; [done|]. split; [done|].
    simpl in Hh. destruct (NewAcceptType first) as [n'|] eqn:En; simpl in Hh; [|done].
    destruct (header_clauses pieces) as [ns|] eqn:Ens; simpl in Hh; [|done].
    injection Hh as -> ->. split; [simpl; by rewrite HC|].
    destruct (NewAcceptType_Ok first n En) as [(_ & _ & HS1) _].
    rewrite HS, HS1. unfold len_slice. simpl in Hlen. simpl length. lia.
Qed.

Context (order : Float32Order).

(** X15: on a non-empty registry and under the order laws of the
    numbers, [GetCodecForResponding] of [part_000] returns exactly when a
    JSONP codec is taken for the callback or [NewAcceptType] returns on
    every clause of the header; otherwise it panics. *)
Theorem AcceptTree_responding_returns_iff s (accept extension : string)
    (hasCallback : bool) :
  codecs s ≠ [] →
  (returns (GetCodecForResponding JSONP s accept extension hasCallback)
   ↔ is_Some (callback_codec JSONP s hasCallback)
     ∨ Forall (λ p, returns (NewAcceptType p)) (Split accept ","))
  ∧ (returns (GetCodecForResponding JSONP s accept extension hasCallback)
     ∨ panics (GetCodecForResponding JSONP s accept extension hasCallback)).
Proof.
  intros Hs. split; [|destruct (GetCodecForResponding _ _ _ _ _);
                       [left|right]; by eexists].
  split.
  - intros [r Hr]. destruct (callback_codec JSONP s hasCallback) eqn:Hcb;
      [left; by eexists|right].
    apply header_clauses_returns.
    unfold GetCodecForResponding in Hr.
    rewrite assertCodecs_nonempty in Hr by done.
    unfold mbind at 1, result_bind at 1 in Hr. cbv beta iota in Hr.
    rewrite Hcb in Hr. unfold ParseAcceptTypes in Hr.
    rewrite ParseAcceptTypes_loop_grow in Hr.
    destruct (header_clauses _); [by eexists|done].
  - intros [[c Hcb]|Hall].
    + unfold GetCodecForResponding. rewrite assertCodecs_nonempty by done.
      unfold mbind at 1, result_bind at 1. cbv beta iota. rewrite Hcb.
      by eexists.
    + destruct (AcceptTree_responding_total_parsed JSONP order s accept
                  extension hasCallback Hs) as (c & -> & _); [|by eexists].
      unfold ParseAcceptTypes. rewrite ParseAcceptTypes_loop_grow.
      apply header_clauses_returns in Hall as [leaves ->]. by eexists.
Qed.
End ParserUse.

(** ** The map of clauses *)

Section Groups.
Context `{F : Float32} (order : Float32Order).
Import WebCodecService.

Lemma map_append_keys (P : float32 → Prop)
    (types : list (float32 * list AcceptType)) (k : float32) (x : AcceptType) :
  Forall (λ e, P e.1) types → P k →
  Forall (λ e, P e.1) (map_append types k x).
Proof.
  intros Hall Hk. induction types as [|[k' b] types IH]; simpl.
  - by repeat constructor.
  - apply Forall_cons in Hall as [Hk' Hall].
    destruct (f32_eq k' k); constructor; simpl in *; auto.
Qed.

Lemma map_append_keys_apart (types : list (float32 * list AcceptType))
    (k : float32) (x : AcceptType) :
  Grouping.keys_apart types → Grouping.keys_apart (map_append types k x).
Proof.
  induction types as [|[k' b] types IH]; simpl; [done|].
  intros [Hk' Hrest]. destruct (f32_eq k' k) eqn:E; simpl; [done|].
  split; [|by apply IH].
  by apply (map_append_keys (λ key, f32_eq k' key = false)).
Qed.

Lemma map_append_filled (types : list (float32 * list AcceptType))
    (k : float32) (x : AcceptType) :
  Forall (λ e, e.2 ≠ []) types → Forall (λ e, e.2 ≠ []) (map_append types k x).
Proof.
  intros Hall. induction types as [|[k' b] types IH]; simpl.
  - by repeat constructor.
  - apply Forall_cons in Hall as [Hb Hall].
    destruct (f32_eq k' k); constructor; simpl in *; auto. by destruct b.
Qed.

Lemma group_invariants (clauses : list AcceptType)
    (types : list (float32 * list AcceptType)) (earlier : list AcceptType) :
  Forall (bucket_of earlier) types → Grouping.keys_apart types →
  Forall (λ e, e.2 ≠ []) types →
  let types' := fold_left (λ types x, map_append types (Priority x) x)
                          clauses types in
  Forall (bucket_of (earlier ++ clauses)) types'
  ∧ Grouping.keys_apart types'
  ∧ Forall (λ e, e.2 ≠ []) types'
  ∧ concat (snd <$> types') ≡ₚ concat (snd <$> types) ++ clauses.
Proof.
  revert types earlier. induction clauses as [|x clauses IH];
    intros types earlier Hb Hk Hf; simpl.
  - by rewrite !app_nil_r.
  - destruct (IH (map_append types (Priority x) x) (earlier ++ [x]))
      as (Hb' & Hk' & Hf' & Hp').
    + by apply map_append_bucket_of.
    + by apply map_append_keys_apart.
    + by apply map_append_filled.
    + rewrite <- app_assoc in Hb'. split; [done|]. split; [done|].
      split; [done|]. rewrite Hp', map_append_concat. by rewrite <- app_assoc.
Qed.

Lemma WebCodecService_loop_group (acceptPieces : list string) types :
  ParseAcceptTypes_loop types acceptPieces
  = clauses ← header_clauses acceptPieces;
    Ok (fold_left (λ types x, map_append types (Priority x) x) clauses types).
Proof.
  revert types. induction acceptPieces as [|p ps IH]; intros types; simpl; [done|].
  destruct (NewAcceptType p) as [x|]; simpl; [|done].
  rewrite IH. by destruct (header_clauses ps).
Qed.

(** X16: the map [ParseAcceptTypes] of [web_codec_service.go] builds:
    every bucket holds clauses of the priority of its key in header order
    and is not empty, no two keys are [==], and the buckets together hold
    the clauses of the header, each once. *)
Theorem WebCodecService_groups_by_priority :
  (∀ clauses,
      Forall (bucket_of clauses) (Grouping.group clauses)
      ∧ Grouping.keys_apart (Grouping.group clauses)
      ∧ Forall (λ e, e.2 ≠ []) (Grouping.group clauses)
      ∧ concat (snd <$> Grouping.group clauses) ≡ₚ clauses)
  ∧ (∀ (accept : string) types,
        ParseAcceptTypes accept = Ok types →
        ∃ clauses,
          header_clauses (Split accept ",") = Ok clauses
          ∧ types = Grouping.group clauses).
Proof.
  split.
  - intros clauses. apply (group_invariants clauses [] []); by constructor.
  - intros accept types. unfold ParseAcceptTypes.
    rewrite WebCodecService_loop_group.
    destruct (header_clauses _) as [clauses|]; simpl; [|done].
    intros [= <-]. by exists clauses.
Qed.
End Groups.

(** [FindCodec] on a clause in capitals: the codec registered under the
    subtype alone is found, the one registered under the full content type
    is not. *)
Example FindCodec_capitals {G : Unicode} :
  FindCodec (leaf "/JSON" 1000) [json; Cases.slash_json]
  = Some Cases.slash_json
  ∧ FindCodec (leaf "/JSON" 1000) [json; xml] = None.
Proof. split; by vm_compute. Qed.

(** ** The further theorems at concrete inputs *)

Section FurtherAtInputs.
Local Existing Instance plain.

Lemma WebCodecService_responding_closed_witness :
  codecs (service [json; xml]) ≠ []
  ∧ ∃ codec,
      WebCodecService.GetCodecForResponding ContentTypeJSONP
        (service [json; xml]) "text/html" "xml" false
      = Ok (Some codec, None)
      ∧ codec ∈ codecs (service [json; xml])
      ∧ (false = true ∧ ContentType codec = ContentTypeJSONP
         ∨ WebCodecService.responding_test "text/html" "xml" false codec = true
         ∨ codecs (service [json; xml]) !! 0%nat = Some codec).
Proof.
  split; [done|].
  by apply (WebCodecService_responding_closed ContentTypeJSONP
              (service [json; xml]) "text/html" "xml" false).
Defined.

Lemma WebCodecService_responding_AddCodec_witness :
  codecs (service [json]) ≠ []
  ∧ (WebCodecService.GetCodecForResponding ContentTypeJSONP
       (AddCodec (service [json]) xml) "text/html" "json" false
     = WebCodecService.GetCodecForResponding ContentTypeJSONP
         (service [json]) "text/html" "json" false).
Proof.
  split; [done|].
  by apply (proj1 (WebCodecService_responding_AddCodec ContentTypeJSONP
                     (service [json]) xml "text/html" "json" false
                     ltac:(done))).
Defined.

Lemma callback_overrides_header_witness :
  first_such (λ c, ContentType c = ContentTypeJSONP)
             (codecs (service [xml; jsonp])) jsonp
  ∧ WebCodecService.GetCodecForResponding ContentTypeJSONP
      (service [xml; jsonp]) "application/xml;q=1" "xml" true
    = Ok (Some jsonp, None)
  ∧ GetCodecForResponding ContentTypeJSONP
      (service [xml; jsonp]) "application/xml;q=1" "xml" true
    = Ok (Some jsonp, None).
Proof.
  assert (first_such (λ c, ContentType c = ContentTypeJSONP)
                     (codecs (service [xml; jsonp])) jsonp) as Hfirst.
  { exists [xml], []. split; [done|]. split; [done|].
    repeat constructor. discriminate. }
  split; [done|].
  apply (callback_overrides_header ContentTypeJSONP (service [xml; jsonp])
           jsonp Hfirst "application/xml;q=1" "xml").
Defined.

Lemma responding_falls_back_to_first_witness :
  (codecs (service [json; xml]) = json :: [xml]
   ∧ callback_codec ContentTypeJSONP (service [json; xml]) false = None)
  ∧ WebCodecService.GetCodecForResponding ContentTypeJSONP
      (service [json; xml]) "text/html" "csv" false
    = Ok (Some json, None).
Proof.
  split; [done|].
  apply (proj1 (responding_falls_back_to_first ContentTypeJSONP
                  (service [json; xml]) "text/html" "csv" false json [xml]
                  eq_refl eq_refl)).
  by repeat constructor.
Defined.

Lemma GetCodec_result_shape_witness :
  codecs (service [xml; json]) ≠ []
  ∧ (ascii_text "Text/CSV" = true
     ∧ Forall (λ c, ascii_text (ContentType c) = true)
              (codecs (service [xml; json])))
  ∧ (GetCodec ContentTypeJSON (service [xml; json]) "Text/CSV"
     = Ok (None,
           Some (errors_New ("Content type " +:+ String dquote "Text/CSV"
                             +:+ String dquote " is not supported.")))
     ↔ Forall (λ c, ¬ occurs_in (ContentType c) "Text/CSV"
                    ∧ ¬ ("Text/CSV" = "" ∧ ContentType c = ContentTypeJSON))
              (codecs (service [xml; json]))).
Proof.
  assert (Forall (λ c, ascii_text (ContentType c) = true)
                 (codecs (service [xml; json]))) as Hascii
    by (repeat constructor).
  split; [done|]. split; [done|].
  by apply (proj2 (proj2 (GetCodec_result_shape ContentTypeJSON
                            (service [xml; json]) "Text/CSV" ltac:(done)))
              eq_refl Hascii).
Defined.

Lemma Append_inserts_in_place_witness :
  (@Float32Order thousandths ∧ fresh (leaf "b" 900))
  ∧ ∃ before after,
      clause <$> inorder (leaf "a" 500) = before ++ after
      ∧ clause <$> inorder (Append (leaf "a" 500) (leaf "b" 900))
        = before ++ clause (leaf "b" 900) :: after.
Proof.
  assert (fresh (leaf "b" 900)) as Hfresh by done.
  split; [split; [exact thousandths_order|done]|].
  apply (Append_inserts_in_place (leaf "a" 500) (leaf "b" 900)
           thousandths_order Hfresh).
Defined.

Lemma Append_drops_incomparable_witness :
  (@f32_eq Cases.maybe (Some 1000) None = false
   ∧ @f32_gt Cases.maybe None (Some 1000) = false
   ∧ @f32_lt Cases.maybe None (Some 1000) = false)
  ∧ @Size Cases.maybe
      (@Append Cases.maybe (Cases.maybe_leaf "a" (Some 1000))
                           (Cases.maybe_leaf "b" None))
    = 2
  ∧ @Left Cases.maybe
      (@Append Cases.maybe (Cases.maybe_leaf "a" (Some 1000))
                           (Cases.maybe_leaf "b" None))
    = None.
Proof.
  split; [done|].
  destruct (@Append_drops_incomparable Cases.maybe
              (Cases.maybe_leaf "a" (Some 1000)) (Cases.maybe_leaf "b" None)
              eq_refl eq_refl eq_refl) as (HL & _ & HS & _).
  split; [exact HS|exact HL].
Defined.

Lemma plain_clause_finds_slash_types_witness :
  (NewAcceptType "application/json" = Ok (leaf "/json" 1000)
   ∧ occurs "+" "application/json" = false
   ∧ FindCodec (leaf "/json" 1000) [json; Cases.slash_json]
     = Some Cases.slash_json)
  ∧ ∃ rest, ContentType Cases.slash_json = String "/" rest.
Proof.
  split; [done|].
  apply (plain_clause_finds_slash_types "application/json" (leaf "/json" 1000)
           [json; Cases.slash_json] Cases.slash_json eq_refl eq_refl eq_refl).
Defined.

Lemma AcceptTree_responding_returns_iff_witness :
  (@Float32Order thousandths ∧ codecs (service [json; xml]) ≠ [])
  ∧ (returns (GetCodecForResponding ContentTypeJSONP (service [json; xml])
                "text/html, application/json" "" false)
     ↔ is_Some (callback_codec ContentTypeJSONP (service [json; xml]) false)
       ∨ Forall (λ p, returns (NewAcceptType p))
                (Split "text/html, application/json" ",")).
Proof.
  split; [split; [exact thousandths_order|done]|].
  by apply (proj1 (AcceptTree_responding_returns_iff ContentTypeJSONP
                     thousandths_order (service [json; xml])
                     "text/html, application/json" "" false ltac:(done))).
Defined.

Lemma WebCodecService_groups_by_priority_witness :
  @Float32Order thousandths
  ∧ Grouping.keys_apart
      (Grouping.group [Cases.weighted "/a" 500; Cases.weighted "/b" 900;
                       Cases.weighted "/c" 500])
  ∧ Forall (WebCodecService.bucket_of
              [Cases.weighted "/a" 500; Cases.weighted "/b" 900;
               Cases.weighted "/c" 500])
           (Grouping.group [Cases.weighted "/a" 500; Cases.weighted "/b" 900;
                            Cases.weighted "/c" 500]).
Proof.
  split; [exact thousandths_order|].
  destruct (proj1 (WebCodecService_groups_by_priority thousandths_order)
              [Cases.weighted "/a" 500; Cases.weighted "/b" 900;
               Cases.weighted "/c" 500]) as (Hb & Hk & _).
  split; [exact Hk|exact Hb].
Defined.

Lemma WebCodecService_registry_order_wins_witness :
  (codecs (service [json; xml]) = [json] ++ xml :: []
   ∧ callback_codec ContentTypeJSONP (service [json; xml]) false = None
   ∧ WebCodecService.responding_test
       "application/xml;q=0.9, application/json;q=0.1" "" false xml
     = true)
  ∧ ∃ selected,
      WebCodecService.GetCodecForResponding ContentTypeJSONP
        (service [json; xml])
        "application/xml;q=0.9, application/json;q=0.1" "" false
      = Ok (Some selected, None)
      ∧ selected ∈ [json] ++ [xml]
      ∧ WebCodecService.responding_test
          "application/xml;q=0.9, application/json;q=0.1" "" false selected
        = true.
Proof.
  split; [done|].
  apply (WebCodecService_registry_order_wins ContentTypeJSONP
           (service [json; xml])
           "application/xml;q=0.9, application/json;q=0.1" "" false
           [json] xml [] eq_refl eq_refl eq_refl).
Defined.

(** The grouping at work: two clauses of priority 0.5 around one of 0.9. *)
Example group_example :
  Grouping.group [Cases.weighted "/a" 500; Cases.weighted "/b" 900;
                  Cases.weighted "/c" 500]
  = [(500, [Cases.weighted "/a" 500; Cases.weighted "/c" 500]);
     (900, [Cases.weighted "/b" 900])].
Proof. reflexivity. Qed.

(** A NaN read by [strconv.ParseFloat] and the slice it leaves. *)
Example ToSlice_after_NaN :
  @ToSlice Cases.maybe
    (@Append Cases.maybe (Cases.maybe_leaf "a" (Some 1000))
                         (Cases.maybe_leaf "b" None))
  = Ok [@Append Cases.maybe (Cases.maybe_leaf "a" (Some 1000))
                            (Cases.maybe_leaf "b" None);
        @zero Cases.maybe].
Proof. reflexivity. Qed.

End FurtherAtInputs.
